(** * KubaGame: a shallow embedding of [KubaGame.py] and its properties

    The Python module keeps a 7x7 board of one-letter strings
    (['W'], ['B'], ['R'] and ['X'] for an empty cell), two [KubaPlayer]
    objects and a handful of attributes on the [KubaGame] object.  Every
    method is embedded as a function that takes the object's attributes as a
    record and returns the new record; a raised [IndexError] is the [None]
    of the option monad. *)

From stdpp Require Import base option list list_numbers strings.
From Stdlib Require Import ZArith Lia.

Local Open Scope Z_scope.

(** ** Cells, players and the game object *)

(** The strings stored in the board: ['W'], ['B'], ['R'] and ['X']. *)
Inductive cell : Set := W | B | R | X.

#[global] Instance cell_eq_dec : EqDecision cell.
Proof. solve_decision. Defined.

Abbreviation board := (list (list cell)).

(** [class KubaPlayer]: [_name], [_color], [_red], [_opponent_marbles]. *)
Record KubaPlayer := mkPlayer {
  get_name : string;
  get_color : cell;
  get_red : Z;
  get_opponent_marbles : Z
}.

Definition KubaPlayer_init (name : string) (color : cell) : KubaPlayer :=
  mkPlayer name color 0 0.

Definition add_red (p : KubaPlayer) : KubaPlayer :=
  mkPlayer (get_name p) (get_color p) (get_red p + 1) (get_opponent_marbles p).

Definition add_opponent_marbles (p : KubaPlayer) : KubaPlayer :=
  mkPlayer (get_name p) (get_color p) (get_red p) (get_opponent_marbles p + 1).

(** The no-go move is a tuple [(row, column, direction)]. *)
Abbreviation token := (Z * Z * string)%type.

(** [class KubaGame]: the attributes set by [__init__], in its order. *)
Record KubaGame := mkGame {
  players : KubaPlayer * KubaPlayer;
  winner : option string;
  turn : option string;
  the_board : board;
  red : Z;
  white : Z;
  black : Z;
  no_go_move : option token;
  captured_marble : option cell;
  temp_board : option board
}.

Definition set_winner (w : option string) (g : KubaGame) : KubaGame :=
  mkGame (players g) w (turn g) (the_board g) (red g) (white g) (black g)
         (no_go_move g) (captured_marble g) (temp_board g).

Definition set_turn (t : option string) (g : KubaGame) : KubaGame :=
  mkGame (players g) (winner g) t (the_board g) (red g) (white g) (black g)
         (no_go_move g) (captured_marble g) (temp_board g).

Definition set_board (b : board) (g : KubaGame) : KubaGame :=
  mkGame (players g) (winner g) (turn g) b (red g) (white g) (black g)
         (no_go_move g) (captured_marble g) (temp_board g).

Definition set_no_go_move (n : option token) (g : KubaGame) : KubaGame :=
  mkGame (players g) (winner g) (turn g) (the_board g) (red g) (white g) (black g)
         n (captured_marble g) (temp_board g).

Definition set_captured_marble (c : option cell) (g : KubaGame) : KubaGame :=
  mkGame (players g) (winner g) (turn g) (the_board g) (red g) (white g) (black g)
         (no_go_move g) c (temp_board g).

Definition set_temp_board (t : option board) (g : KubaGame) : KubaGame :=
  mkGame (players g) (winner g) (turn g) (the_board g) (red g) (white g) (black g)
         (no_go_move g) (captured_marble g) t.

Definition set_players (ps : KubaPlayer * KubaPlayer) (g : KubaGame) : KubaGame :=
  mkGame ps (winner g) (turn g) (the_board g) (red g) (white g) (black g)
         (no_go_move g) (captured_marble g) (temp_board g).

Definition set_counts (r w b : Z) (g : KubaGame) : KubaGame :=
  mkGame (players g) (winner g) (turn g) (the_board g) r w b
         (no_go_move g) (captured_marble g) (temp_board g).

(** ** Python primitives *)

(** [l[i]] for a list.  An index at or beyond the length raises
    [IndexError] in Python; a negative index would wrap around.  Both are
    reported as [None] here, so that a run of the model that yields [Some]
    is a run in which every index lies within the list. *)
Definition index {A} (l : list A) (i : Z) : option A :=
  if decide (0 ≤ i) then l !! Z.to_nat i else None.

(** [l[i]] as Python evaluates it for any integer: a negative index counts
    from the end of the list, and an index outside [-len, len) raises
    [IndexError], reported as [None]. *)
Definition index_wrap {A} (l : list A) (i : Z) : option A :=
  if decide (0 ≤ i) then l !! Z.to_nat i else index l (Z.of_nat (length l) + i).

(** [b[row][column]] *)
Definition cellAt (b : board) (row column : Z) : option cell :=
  r ← index b row; index r column.

(** [b[row][column] = v] *)
Definition setCell (b : board) (row column : Z) (v : cell) : option board :=
  r ← index b row;
  _ ← index r column;
  Some (<[Z.to_nat row := <[Z.to_nat column := v]> r]> b).

(** [range(start, stop)] *)
Definition range (start stop : Z) : list Z := seqZ start (stop - start).

(** [range(start, stop, -1)] *)
Definition range_down (start stop : Z) : list Z :=
  (λ k, start - k) <$> seqZ 0 (start - stop).

(** [for num in idxs: if look(num) == 'X': var = num; break], where [var]
    holds [dflt] before the loop; the result is [var] after the loop. *)
Fixpoint find_blank (look : Z → option cell) (idxs : list Z) (dflt : Z) : option Z :=
  match idxs with
  | [] => Some dflt
  | num :: rest =>
      v ← look num;
      if decide (v = X) then Some num else find_blank look rest dflt
  end.

(** [for num in idxs: body], the body acting on the temporary board. *)
Fixpoint for_each (idxs : list Z) (body : Z → board → option board) (t : board)
  : option board :=
  match idxs with
  | [] => Some t
  | num :: rest => t' ← body num t; for_each rest body t'
  end.

(** The guard of the four [if self._no_go_move is not None and ...] tests. *)
Definition undoes (n : option token) (coor_tup : Z * Z) (d : string) : bool :=
  match n with
  | None => false
  | Some (r, c, d') =>
      bool_decide (coor_tup.1 = r) && bool_decide (coor_tup.2 = c) && bool_decide (d' = d)
  end.

(** ** The four pushes *)

(** [move_left], lines 262-340. *)
Definition move_left (coor_tup : Z * Z) (player : KubaPlayer) (self : KubaGame)
  : option (bool * KubaGame) :=
  let temp := the_board self in
  let self := set_captured_marble None (set_temp_board (Some temp) self) in
  let row := coor_tup.1 in
  let column := coor_tup.2 in
  blocked ← (if decide (column ≠ 6)
             then val ← cellAt temp row (column + 1); Some (bool_decide (val ≠ X))
             else Some false);
  if (blocked : bool) then Some (false, self) else
  min ← find_blank (cellAt temp row) (range_down column (-1)) 0;
  let inverse_bool := bool_decide (min = 0) in
  edge ← (if decide (min = 0) then
            leftmost ← cellAt temp row min;
            if decide (leftmost = get_color player) then Some None
            else if decide (leftmost ≠ X) then Some (Some (false, Some leftmost))
            else Some (Some (inverse_bool, None))
          else Some (Some (inverse_bool, None)));
  match edge with
  | None => Some (false, self)
  | Some (inverse_bool, captured) =>
      let self := set_captured_marble captured self in
      if undoes (no_go_move self) coor_tup "L" then Some (false, self) else
      temp ← for_each (range min column)
                (λ num t, v ← cellAt t row (num + 1); setCell t row num v) temp;
      temp ← setCell temp row column X;
      let self := set_temp_board (Some temp) self in
      Some (true, set_no_go_move
                    (if (inverse_bool : bool) then Some (row, min, "R"%string) else None) self)
  end.

(** [move_right], lines 342-419. *)
Definition move_right (coor_tup : Z * Z) (player : KubaPlayer) (self : KubaGame)
  : option (bool * KubaGame) :=
  let temp := the_board self in
  let self := set_captured_marble None (set_temp_board (Some temp) self) in
  let row := coor_tup.1 in
  let column := coor_tup.2 in
  blocked ← (if decide (column ≠ 0)
             then val ← cellAt temp row (column - 1); Some (bool_decide (val ≠ X))
             else Some false);
  if (blocked : bool) then Some (false, self) else
  max ← find_blank (cellAt temp row) (range column 7) 6;
  let inverse_bool := bool_decide (max = 6) in
  edge ← (if decide (max = 6) then
            rightmost ← cellAt temp row max;
            if decide (rightmost = get_color player) then Some None
            else if decide (rightmost ≠ X) then Some (Some (false, Some rightmost))
            else Some (Some (inverse_bool, None))
          else Some (Some (inverse_bool, None)));
  match edge with
  | None => Some (false, self)
  | Some (inverse_bool, captured) =>
      let self := set_captured_marble captured self in
      if undoes (no_go_move self) coor_tup "R" then Some (false, self) else
      temp ← for_each (range_down max column)
                (λ num t, v ← cellAt t row (num - 1); setCell t row num v) temp;
      temp ← setCell temp row column X;
      let self := set_temp_board (Some temp) self in
      Some (true, set_no_go_move
                    (if (inverse_bool : bool) then Some (row, max, "L"%string) else None) self)
  end.

(** [move_forward], lines 421-498. *)
Definition move_forward (coor_tup : Z * Z) (player : KubaPlayer) (self : KubaGame)
  : option (bool * KubaGame) :=
  let temp := the_board self in
  let self := set_captured_marble None (set_temp_board (Some temp) self) in
  let row := coor_tup.1 in
  let column := coor_tup.2 in
  blocked ← (if decide (row ≠ 6)
             then val ← cellAt temp (row + 1) column; Some (bool_decide (val ≠ X))
             else Some false);
  if (blocked : bool) then Some (false, self) else
  min ← find_blank (λ num, cellAt temp num column) (range_down row (-1)) 0;
  let inverse_bool := bool_decide (min = 0) in
  edge ← (if decide (min = 0) then
            topmost ← cellAt temp min column;
            if decide (topmost = get_color player) then Some None
            else if decide (topmost ≠ X) then Some (Some (false, Some topmost))
            else Some (Some (inverse_bool, None))
          else Some (Some (inverse_bool, None)));
  match edge with
  | None => Some (false, self)
  | Some (inverse_bool, captured) =>
      let self := set_captured_marble captured self in
      if undoes (no_go_move self) coor_tup "F" then Some (false, self) else
      temp ← for_each (range min row)
                (λ num t, v ← cellAt t (num + 1) column; setCell t num column v) temp;
      temp ← setCell temp row column X;
      let self := set_temp_board (Some temp) self in
      Some (true, set_no_go_move
                    (if (inverse_bool : bool) then Some (min, column, "B"%string) else None) self)
  end.

(** [move_backward], lines 500-576. *)
Definition move_backward (coor_tup : Z * Z) (player : KubaPlayer) (self : KubaGame)
  : option (bool * KubaGame) :=
  let temp := the_board self in
  let self := set_captured_marble None (set_temp_board (Some temp) self) in
  let row := coor_tup.1 in
  let column := coor_tup.2 in
  blocked ← (if decide (row ≠ 0)
             then val ← cellAt temp (row - 1) column; Some (bool_decide (val ≠ X))
             else Some false);
  if (blocked : bool) then Some (false, self) else
  max ← find_blank (λ num, cellAt temp num column) (range row 7) 6;
  let inverse_bool := bool_decide (max = 6) in
  edge ← (if decide (max = 6) then
            bottommost ← cellAt temp max column;
            if decide (bottommost = get_color player) then Some None
            else if decide (bottommost ≠ X) then Some (Some (false, Some bottommost))
            else Some (Some (inverse_bool, None))
          else Some (Some (inverse_bool, None)));
  match edge with
  | None => Some (false, self)
  | Some (inverse_bool, captured) =>
      let self := set_captured_marble captured self in
      if undoes (no_go_move self) coor_tup "B" then Some (false, self) else
      temp ← for_each (range_down max row)
                (λ num t, v ← cellAt t (num - 1) column; setCell t num column v) temp;
      temp ← setCell temp row column X;
      let self := set_temp_board (Some temp) self in
      Some (true, set_no_go_move
                    (if (inverse_bool : bool) then Some (max, column, "F"%string) else None) self)
  end.

(** ** Captures, queries and [make_move] *)

(** [self._players[curr]] *)
Definition player_at (curr : Z) (self : KubaGame) : KubaPlayer :=
  if decide (curr = 0) then (players self).1 else (players self).2.

(** The player objects are shared with the list [self._players]; a call
    of [add_red] or [add_opponent_marbles] on [current_player] is a
    write to the entry [curr] of that list. *)
Definition update_player (curr : Z) (f : KubaPlayer → KubaPlayer) (self : KubaGame)
  : KubaGame :=
  if decide (curr = 0)
  then set_players (f (players self).1, (players self).2) self
  else set_players ((players self).1, f (players self).2) self.

(** [update_marbles], lines 578-602. *)
Definition update_marbles (cell_captured : cell) (curr : Z) (self : KubaGame) : KubaGame :=
  if decide (cell_captured = R) then
    let self := update_player curr add_red self in
    set_counts (red self - 1) (white self) (black self) self
  else
    let self := update_player curr add_opponent_marbles self in
    if decide (cell_captured = W)
    then set_counts (red self) (white self - 1) (black self) self
    else set_counts (red self) (white self) (black self - 1) self.

Definition get_winner (self : KubaGame) : option string := winner self.

Definition get_current_turn (self : KubaGame) : option string := turn self.

(** [get_captured], lines 611-618; Python returns [None] for a name that
    matches neither player. *)
Definition get_captured (player_name : string) (self : KubaGame) : option Z :=
  if decide (get_name (players self).1 = player_name) then Some (get_red (players self).1)
  else if decide (get_name (players self).2 = player_name) then Some (get_red (players self).2)
  else None.

(** [get_marble], lines 620-630.  The coordinates are the caller's and
    are not checked: a negative one wraps around. *)
Definition get_marble (corr_tup : Z * Z) (self : KubaGame) : option cell :=
  row ← index_wrap (the_board self) corr_tup.1;
  index_wrap row corr_tup.2.

(** [get_marble_count], lines 632-637: the tuple [(W, B, R)]. *)
Definition get_marble_count (self : KubaGame) : Z * Z * Z :=
  (white self, black self, red self).

(** [KubaGame.__init__], lines 92-126. *)
Definition initial_board : board :=
  [ [ W; W; X; X; X; B; B ];
    [ W; W; X; R; X; B; B ];
    [ X; X; R; R; R; X; W ];
    [ X; R; R; R; R; R; X ];
    [ X; X; R; R; R; X; X ];
    [ B; B; X; R; X; W; W ];
    [ B; B; X; X; X; W; W ] ].

Definition KubaGame_init (pc_tup_1 pc_tup_2 : string * cell) : KubaGame :=
  {| players := (KubaPlayer_init pc_tup_1.1 pc_tup_1.2,
                 KubaPlayer_init pc_tup_2.1 pc_tup_2.2);
     winner := None;
     turn := None;
     the_board := initial_board;
     red := 13;
     white := 8;
     black := 8;
     no_go_move := None;
     captured_marble := None;
     temp_board := None |}.

(** The body of the inner loop of lines 197-208 for the cells of one row.
    The four trial pushes run one after the other on the game object, each
    starting from what the one before left in [_no_go_move]; [break]
    leaves this row only. *)
Fixpoint try_columns (row : Z) (columns : list Z) (current_player : KubaPlayer)
    (can_move : bool) (self : KubaGame) : option (bool * KubaGame) :=
  match columns with
  | [] => Some (can_move, self)
  | column :: rest =>
      cell ← cellAt (the_board self) row column;
      if decide (cell = get_color current_player) then
        '(test_left, self) ← move_left (row, column) current_player self;
        '(test_right, self) ← move_right (row, column) current_player self;
        '(test_forward, self) ← move_forward (row, column) current_player self;
        '(test_backward, self) ← move_backward (row, column) current_player self;
        if test_left || test_right || test_forward || test_backward
        then Some (true, self)
        else try_columns row rest current_player can_move self
      else try_columns row rest current_player can_move self
  end.

(** The outer loop of lines 197-208. *)
Fixpoint try_rows (rows : list Z) (current_player : KubaPlayer)
    (can_move : bool) (self : KubaGame) : option (bool * KubaGame) :=
  match rows with
  | [] => Some (can_move, self)
  | row :: rest =>
      '(can_move, self) ← try_columns row (range 0 7) current_player can_move self;
      try_rows rest current_player can_move self
  end.

(** Lines 195-209: the search for a legal move, with the no-go move saved
    before and restored after. *)
Definition any_legal_move (current_player : KubaPlayer) (self : KubaGame)
  : option (bool * KubaGame) :=
  let temp_no_go := no_go_move self in
  '(can_move, self) ← try_rows (range 0 7) current_player false self;
  Some (can_move, set_no_go_move temp_no_go self).

(** [make_move], lines 143-260.  A successful push has always stored a
    board in [_temp_board], so the assignment of line 235 reads it with a
    bind. *)
Definition make_move (playername : string) (coordinates : Z * Z) (direction : string)
    (self : KubaGame) : option (bool * KubaGame) :=
  let self := if decide (turn self = None) then set_turn (Some playername) self else self in
  if decide (turn self ≠ Some playername) then Some (false, self) else
  if decide (winner self ≠ None) then Some (false, self) else
  if bool_decide (coordinates.1 < 0 ∨ coordinates.1 > 6)
     || bool_decide (coordinates.2 < 0 ∨ coordinates.2 > 6)
  then Some (false, self) else
  match (if decide (get_name (players self).1 = playername) then Some 0
         else if decide (get_name (players self).2 = playername) then Some 1
         else None) with
  | None => Some (false, self)
  | Some curr =>
      let current_player := player_at curr self in
      let other_player := player_at (1 - curr) self in
      marble ← get_marble coordinates self;
      if decide (marble ≠ get_color current_player) then Some (false, self) else
      '(can_move, self) ← any_legal_move current_player self;
      if negb can_move
      then Some (false, set_winner (Some (get_name other_player)) self) else
      pushed ← (if decide (direction = "L"%string)
                then Some <$> move_left coordinates current_player self
                else if decide (direction = "R"%string)
                then Some <$> move_right coordinates current_player self
                else if decide (direction = "F"%string)
                then Some <$> move_forward coordinates current_player self
                else if decide (direction = "B"%string)
                then Some <$> move_backward coordinates current_player self
                else Some None);
      match pushed with
      | None => Some (false, self)
      | Some (temp, self) =>
          if (temp : bool) then
            let self := match captured_marble self with
                        | Some c => update_marbles c curr self
                        | None => self
                        end in
            new_board ← temp_board self;
            let self := set_board new_board self in
            let current_player := player_at curr self in
            let opponent_marbles := get_opponent_marbles current_player in
            let player_red := get_red current_player in
            let self := if bool_decide (8 ≤ opponent_marbles) || bool_decide (7 ≤ player_red)
                        then set_winner (Some playername) self else self in
            let self := if decide (curr = 0)
                        then set_turn (Some (get_name (players self).2)) self
                        else set_turn (Some (get_name (players self).1)) self in
            Some (true, self)
          else Some (false, self)
      end
  end.

(** The session of the [__main__] block, lines 648-657. *)
Definition main_game : KubaGame :=
  KubaGame_init ("PlayerA"%string, W) ("PlayerB"%string, B).

Example main_marble_count : get_marble_count main_game = (8, 8, 13).
Proof. reflexivity. Qed.

Example main_first_move :
  (g ← snd <$> make_move "PlayerA" (6, 5) "F" main_game;
   Some (get_current_turn g, get_winner g,
         fst <$> make_move "PlayerA" (6, 5) "L" g, get_marble (5, 5) g))
  = Some (Some "PlayerB"%string, None, Some false, Some W).
Proof. vm_compute. reflexivity. Qed.

(** ** Vocabulary of the specification *)

(** The four directions a push can take, and the letter that names each
    of them in [make_move]. *)
Inductive dir : Set := Leftward | Rightward | Forward | Backward.

#[global] Instance dir_eq_dec : EqDecision dir.
Proof. solve_decision. Defined.

Definition dir_name (d : dir) : string :=
  match d with
  | Leftward => "L" | Rightward => "R" | Forward => "F" | Backward => "B"
  end.

Definition opposite (d : dir) : dir :=
  match d with
  | Leftward => Rightward | Rightward => Leftward
  | Forward => Backward | Backward => Forward
  end.

(** The method that carries out a push in direction [d]. *)
Definition push (d : dir) : Z * Z → KubaPlayer → KubaGame → option (bool * KubaGame) :=
  match d with
  | Leftward => move_left | Rightward => move_right
  | Forward => move_forward | Backward => move_backward
  end.

(** The cell [k] steps ahead of [rc] in direction [d]. *)
Definition ahead (d : dir) (rc : Z * Z) (k : Z) : Z * Z :=
  match d with
  | Leftward => (rc.1, rc.2 - k)
  | Rightward => (rc.1, rc.2 + k)
  | Forward => (rc.1 - k, rc.2)
  | Backward => (rc.1 + k, rc.2)
  end.

(** The number of steps from [rc] to the last cell of the board in
    direction [d], and that cell. *)
Definition steps_to_edge (d : dir) (rc : Z * Z) : Z :=
  match d with
  | Leftward => rc.2
  | Rightward => 6 - rc.2
  | Forward => rc.1
  | Backward => 6 - rc.1
  end.

Definition far_edge (d : dir) (rc : Z * Z) : Z * Z := ahead d rc (steps_to_edge d rc).

Definition on_board (rc : Z * Z) : Prop := 0 ≤ rc.1 ≤ 6 ∧ 0 ≤ rc.2 ≤ 6.

Definition blank_at (b : board) (rc : Z * Z) : Prop := cellAt b rc.1 rc.2 = Some X.

Definition marble_at (b : board) (rc : Z * Z) : Prop :=
  ∃ v, cellAt b rc.1 rc.2 = Some v ∧ v ≠ X.

(** The scan from the origin in the push direction meets its first empty
    cell after [k] steps. *)
Definition first_blank_after (b : board) (d : dir) (rc : Z * Z) (k : Z) : Prop :=
  0 ≤ k ≤ steps_to_edge d rc
  ∧ blank_at b (ahead d rc k)
  ∧ ∀ j, 0 ≤ j < k → marble_at b (ahead d rc j).

(** The scan meets no empty cell up to and including the far edge: the
    marble on the far edge falls off the board. *)
Definition no_blank_ahead (b : board) (d : dir) (rc : Z * Z) : Prop :=
  ∀ j, 0 ≤ j ≤ steps_to_edge d rc → marble_at b (ahead d rc j).

(** A 7x7 grid. *)
Definition board_ok (b : board) : Prop :=
  length b = 7%nat ∧ Forall (λ r, length r = 7%nat) b.

(** The index of the player object that [make_move] picks for a name. *)
Definition resolve (playername : string) (self : KubaGame) : option Z :=
  if decide (get_name (players self).1 = playername) then Some 0
  else if decide (get_name (players self).2 = playername) then Some 1
  else None.

(** The marbles on a board, and the captures recorded by both players. *)
Definition marbles_in (r : list cell) : Z := Z.of_nat (length (filter (λ v, v ≠ X) r)).

Definition marbles_on (b : board) : Z := foldr (λ r acc, marbles_in r + acc) 0 b.

Definition count_color (v : cell) (b : board) : Z :=
  foldr (λ r acc, Z.of_nat (length (filter (λ u, u = v) r)) + acc) 0 b.

Definition captures_of (p : KubaPlayer) : Z := get_red p + get_opponent_marbles p.

Definition captures (self : KubaGame) : Z :=
  captures_of (players self).1 + captures_of (players self).2.

(** The requester has a legal push: a cell of the board with a marble of
    the player's colour and a direction in which the push goes through,
    the no-go move of the game taken into account. *)
Definition has_legal_push (pl : KubaPlayer) (self : KubaGame) : Prop :=
  ∃ rc d s', on_board rc
    ∧ cellAt (the_board self) rc.1 rc.2 = Some (get_color pl)
    ∧ push d rc pl self = Some (true, s').

(** ** Lists, cells and ranges *)

Lemma index_Some {A} (l : list A) i x :
  index l i = Some x ↔ 0 ≤ i ∧ l !! Z.to_nat i = Some x.
Proof. unfold index. case_decide; naive_solver. Qed.

Lemma index_is_Some {A} (l : list A) i :
  0 ≤ i < Z.of_nat (length l) → is_Some (index l i).
Proof.
  intros Hi. unfold index. rewrite decide_True by lia.
  apply lookup_lt_is_Some. lia.
Qed.

Lemma index_lt {A} (l : list A) i x :
  index l i = Some x → 0 ≤ i < Z.of_nat (length l).
Proof.
  intros [Hi Hl]%index_Some. apply lookup_lt_Some in Hl. lia.
Qed.

Lemma board_ok_row b i r : board_ok b → index b i = Some r → length r = 7%nat.
Proof.
  intros [_ Hall] [_ Hl]%index_Some.
  rewrite Forall_lookup in Hall. eapply Hall, Hl.
Qed.

Lemma cellAt_Some b r c v :
  cellAt b r c = Some v ↔ ∃ row, index b r = Some row ∧ index row c = Some v.
Proof.
  unfold cellAt. split.
  - intros H. destruct (index b r) as [row|] eqn:E1; simplify_eq/=. eauto.
  - intros (row & -> & H2). done.
Qed.

Lemma cellAt_is_Some b rc : board_ok b → on_board rc → is_Some (cellAt b rc.1 rc.2).
Proof.
  intros Hok [Hr Hc].
  destruct (index_is_Some b rc.1) as [row Hrow]; [destruct Hok; lia|].
  destruct (index_is_Some row rc.2) as [v Hv].
  { rewrite (board_ok_row _ _ _ Hok Hrow). lia. }
  exists v. apply cellAt_Some. eauto.
Qed.

Lemma cellAt_on_board b r c v : board_ok b → cellAt b r c = Some v → on_board (r, c).
Proof.
  intros Hok (row & Hrow & Hv)%cellAt_Some.
  pose proof (board_ok_row _ _ _ Hok Hrow) as Hlen.
  apply index_lt in Hrow, Hv. destruct Hok as [Hb _].
  unfold on_board; simpl. lia.
Qed.

Lemma setCell_Some b r c v b' :
  setCell b r c v = Some b' ↔
  ∃ row old, index b r = Some row ∧ index row c = Some old
             ∧ b' = <[Z.to_nat r := <[Z.to_nat c := v]> row]> b.
Proof.
  unfold setCell. split.
  - intros H. destruct (index b r) as [row|] eqn:E1; simplify_eq/=.
    destruct (index row c) as [old|] eqn:E2; simplify_eq/=. eauto.
  - intros (row & old & -> & H2 & ->). simpl. by rewrite H2.
Qed.

Lemma setCell_is_Some b r c v : is_Some (cellAt b r c) → is_Some (setCell b r c v).
Proof.
  intros [old (row & Hrow & Hold)%cellAt_Some].
  eexists. apply setCell_Some. eauto.
Qed.

Lemma setCell_board_ok b r c v b' : board_ok b → setCell b r c v = Some b' → board_ok b'.
Proof.
  intros [Hlen Hall] (row & old & Hrow & Hold & ->)%setCell_Some.
  split; [by rewrite length_insert|].
  apply Forall_insert; [done|]. cbv beta. rewrite length_insert.
  apply index_Some in Hrow as [_ Hrow].
  rewrite Forall_lookup in Hall. eapply Hall, Hrow.
Qed.

Lemma cellAt_setCell b r c v b' r' c' :
  setCell b r c v = Some b' →
  cellAt b' r' c' = if decide (r' = r ∧ c' = c) then Some v else cellAt b r' c'.
Proof.
  intros (row & old & Hrow & Hold & ->)%setCell_Some.
  apply index_Some in Hrow as [Hr Hrow]. apply index_Some in Hold as [Hc Hold].
  unfold cellAt, index.
  destruct (decide (0 ≤ r')) as [Hr'|]; [|rewrite decide_False by lia; done].
  destruct (decide (r' = r)) as [->|Hne].
  - rewrite list_lookup_insert_eq by (by eapply lookup_lt_Some).
    rewrite Hrow. simpl.
    destruct (decide (0 ≤ c')) as [Hc'|]; [|rewrite decide_False by lia; done].
    destruct (decide (c' = c)) as [->|Hnc].
    + rewrite decide_True by done.
      apply list_lookup_insert_eq. by eapply lookup_lt_Some.
    + rewrite decide_False by naive_solver.
      apply list_lookup_insert_ne. lia.
  - rewrite decide_False by naive_solver.
    rewrite list_lookup_insert_ne by lia. done.
Qed.

Lemma cellAt_setCell_eq b r c v b' : setCell b r c v = Some b' → cellAt b' r c = Some v.
Proof. intros H. rewrite (cellAt_setCell _ _ _ _ _ _ _ H). by rewrite decide_True. Qed.

Lemma cellAt_setCell_ne b r c v b' r' c' :
  setCell b r c v = Some b' → (r', c') ≠ (r, c) → cellAt b' r' c' = cellAt b r' c'.
Proof.
  intros H Hne. rewrite (cellAt_setCell _ _ _ _ _ _ _ H).
  rewrite decide_False; [done|]. intros [-> ->]. done.
Qed.

Lemma range_nil a b : b ≤ a → range a b = [].
Proof. intros. unfold range. apply seqZ_nil. lia. Qed.

Lemma range_cons a b : a < b → range a b = a :: range (a + 1) b.
Proof.
  intros. unfold range. rewrite seqZ_cons by lia.
  f_equal. f_equal; lia.
Qed.

Lemma range_down_nil a b : a ≤ b → range_down a b = [].
Proof. intros. unfold range_down. rewrite seqZ_nil by lia. done. Qed.

Lemma range_down_cons a b : b < a → range_down a b = a :: range_down (a - 1) b.
Proof.
  intros. unfold range_down. rewrite seqZ_cons by lia. simpl.
  f_equal; [lia|].
  replace (Z.pred (a - b)) with (a - 1 - b) by lia.
  rewrite <- (fmap_add_seqZ 1 0). rewrite <- list_fmap_compose.
  apply list_fmap_ext. intros _ k _. simpl. lia.
Qed.

Lemma elem_of_range a b x : x ∈ range a b ↔ a ≤ x < b.
Proof. unfold range. rewrite elem_of_seqZ. lia. Qed.

(** A looked-up cell that holds a marble. *)
Definition is_marble (o : option cell) : Prop := ∃ v, o = Some v ∧ v ≠ X.

(** What the scan loop returns over an ascending range. *)
Lemma find_blank_range look dflt a b m :
  find_blank look (range a b) dflt = Some m →
  (a ≤ m < b ∧ look m = Some X ∧ ∀ j, a ≤ j < m → is_marble (look j))
  ∨ (m = dflt ∧ ∀ j, a ≤ j < b → is_marble (look j)).
Proof.
  remember (Z.to_nat (b - a)) as n eqn:Hn.
  revert a Hn. induction n as [|n IH]; intros a Hn.
  - rewrite range_nil by lia. simpl. intros [= <-]. right. split; [done|]. lia.
  - rewrite range_cons by lia. simpl.
    destruct (look a) as [v|] eqn:Ha; simpl; [|done].
    case_decide as Hv.
    + intros [= <-]. subst v. left. split; [lia|]. split; [done|]. lia.
    + intros Hrec. apply IH in Hrec; [|lia].
      destruct Hrec as [(Hm & Hx & Hall)|[-> Hall]].
      * left. split; [lia|]. split; [done|]. intros j Hj.
        destruct (decide (j = a)) as [->|]; [by exists v|]. apply Hall. lia.
      * right. split; [done|]. intros j Hj.
        destruct (decide (j = a)) as [->|]; [by exists v|]. apply Hall. lia.
Qed.

(** What the scan loop returns over a descending range. *)
Lemma find_blank_range_down look dflt a b m :
  find_blank look (range_down a b) dflt = Some m →
  (b < m ≤ a ∧ look m = Some X ∧ ∀ j, m < j ≤ a → is_marble (look j))
  ∨ (m = dflt ∧ ∀ j, b < j ≤ a → is_marble (look j)).
Proof.
  remember (Z.to_nat (a - b)) as n eqn:Hn.
  revert a Hn. induction n as [|n IH]; intros a Hn.
  - rewrite range_down_nil by lia. simpl. intros [= <-]. right. split; [done|]. lia.
  - rewrite range_down_cons by lia. simpl.
    destruct (look a) as [v|] eqn:Ha; simpl; [|done].
    case_decide as Hv.
    + intros [= <-]. subst v. left. split; [lia|]. split; [done|]. lia.
    + intros Hrec. apply IH in Hrec; [|lia].
      destruct Hrec as [(Hm & Hx & Hall)|[-> Hall]].
      * left. split; [lia|]. split; [done|]. intros j Hj.
        destruct (decide (j = a)) as [->|]; [by exists v|]. apply Hall. lia.
      * right. split; [done|]. intros j Hj.
        destruct (decide (j = a)) as [->|]; [by exists v|]. apply Hall. lia.
Qed.

(** The scan loop raises nothing when every cell it reads exists. *)
Lemma find_blank_is_Some look idxs dflt :
  Forall (λ j, is_Some (look j)) idxs → is_Some (find_blank look idxs dflt).
Proof.
  induction 1 as [|j idxs [v Hv] _ IH]; simpl; [by eexists|].
  rewrite Hv. simpl. case_decide; [by eexists|done].
Qed.

(** ** Counting marbles under a write *)

(** The contribution of a looked-up cell to the number of marbles. *)
Definition weight (o : option cell) : Z :=
  match o with
  | Some v => if decide (v = X) then 0 else 1
  | None => 0
  end.

#[local] Arguments weight : simpl never.
#[local] Arguments marbles_in : simpl never.

Lemma marbles_in_cons v r :
  marbles_in (v :: r) = weight (Some v) + marbles_in r.
Proof.
  unfold marbles_in, weight. rewrite filter_cons.
  destruct (decide (v = X)); case_decide; simpl; try done; lia.
Qed.

Lemma marbles_in_insert (r : list cell) (i : nat) v old :
  r !! i = Some old →
  marbles_in (<[i := v]> r) + weight (Some old) = marbles_in r + weight (Some v).
Proof.
  revert i. induction r as [|u r IH]; intros [|i] Hi; simplify_eq/=.
  - rewrite !marbles_in_cons. lia.
  - rewrite !marbles_in_cons. specialize (IH _ Hi). lia.
Qed.

Lemma marbles_on_insert (b : board) (i : nat) row row' :
  b !! i = Some row →
  marbles_on (<[i := row']> b) + marbles_in row = marbles_on b + marbles_in row'.
Proof.
  revert i. induction b as [|u b IH]; intros [|i] Hi; simplify_eq/=.
  - lia.
  - specialize (IH _ Hi). fold (marbles_on b). fold (marbles_on (<[i:=row']> b)). lia.
Qed.

Lemma marbles_on_setCell b r c v b' :
  setCell b r c v = Some b' →
  marbles_on b' + weight (cellAt b r c) = marbles_on b + weight (Some v).
Proof.
  intros (row & old & Hrow & Hold & ->)%setCell_Some.
  assert (cellAt b r c = Some old) as -> by (apply cellAt_Some; eauto).
  apply index_Some in Hrow as [_ Hrow]. apply index_Some in Hold as [_ Hold].
  pose proof (marbles_on_insert b _ _ (<[Z.to_nat c := v]> row) Hrow).
  pose proof (marbles_in_insert row _ v _ Hold). lia.
Qed.

(** ** The shifting loops *)

Lemma for_each_board_ok idxs body t t' :
  (∀ num u u', body num u = Some u' → board_ok u → board_ok u') →
  board_ok t → for_each idxs body t = Some t' → board_ok t'.
Proof.
  intros Hbody. revert t. induction idxs as [|num idxs IH]; intros t Hok; simpl.
  - by intros [= <-].
  - destruct (body num t) as [u|] eqn:Hu; simpl; [|done]. eauto.
Qed.

Lemma for_each_is_Some idxs body t :
  (∀ num u, num ∈ idxs → board_ok u → ∃ u', body num u = Some u' ∧ board_ok u') →
  board_ok t → is_Some (for_each idxs body t).
Proof.
  revert t. induction idxs as [|num idxs IH]; intros t Hbody Hok; simpl; [by eexists|].
  destruct (Hbody num t) as (u & -> & Hu); [left|done|]. simpl.
  apply IH; [|done]. intros. apply Hbody; [by right|done].
Qed.

Section shift.
(** The cells of one row or one column, by their index along it. *)
Context (pos : Z → Z * Z).
Context (pos_inj : ∀ i j, pos i = pos j → i = j).

Let read (t : board) (i : Z) : option cell := cellAt t (pos i).1 (pos i).2.

Lemma read_write_ne t i v t' j :
  setCell t (pos i).1 (pos i).2 v = Some t' → j ≠ i → read t' j = read t j.
Proof.
  intros Hset Hne. unfold read. eapply cellAt_setCell_ne; [done|].
  intros Heq. apply Hne, pos_inj.
  destruct (pos i), (pos j). simpl in *. congruence.
Qed.

(** [for num in range(lo, hi): t[num] = t[num + 1]] along the line. *)
Lemma shift_toward_low body lo hi t t' :
  (∀ num u, body num u
            = (v ← read u (num + 1); setCell u (pos num).1 (pos num).2 v)) →
  lo ≤ hi →
  for_each (range lo hi) body t = Some t' →
  marbles_on t' + weight (read t lo) = marbles_on t + weight (read t hi)
  ∧ read t' hi = read t hi.
Proof.
  intros Hbody.
  remember (Z.to_nat (hi - lo)) as n eqn:Hn.
  revert lo t Hn. induction n as [|n IH]; intros lo t Hn Hle.
  - rewrite range_nil by lia. simpl. intros [= <-].
    replace lo with hi by lia. done.
  - rewrite range_cons by lia. simpl. rewrite Hbody.
    destruct (read t (lo + 1)) as [v|] eqn:Hv; simpl; [|done].
    destruct (setCell t (pos lo).1 (pos lo).2 v) as [t1|] eqn:Ht1; simpl; [|done].
    intros Hrest. apply IH in Hrest as [Hcount Hhi]; [|lia..].
    rewrite (read_write_ne _ _ _ _ (lo + 1) Ht1) in Hcount by lia.
    rewrite (read_write_ne _ _ _ _ hi Ht1) in Hcount, Hhi by lia.
    apply marbles_on_setCell in Ht1. fold (read t lo) in Ht1.
    rewrite Hv in Hcount. split; [lia|done].
Qed.

(** [for num in range(hi, lo, -1): t[num] = t[num - 1]] along the line. *)
Lemma shift_toward_high body lo hi t t' :
  (∀ num u, body num u
            = (v ← read u (num - 1); setCell u (pos num).1 (pos num).2 v)) →
  lo ≤ hi →
  for_each (range_down hi lo) body t = Some t' →
  marbles_on t' + weight (read t hi) = marbles_on t + weight (read t lo)
  ∧ read t' lo = read t lo.
Proof.
  intros Hbody.
  remember (Z.to_nat (hi - lo)) as n eqn:Hn.
  revert hi t Hn. induction n as [|n IH]; intros hi t Hn Hle.
  - rewrite range_down_nil by lia. simpl. intros [= <-].
    replace hi with lo by lia. done.
  - rewrite range_down_cons by lia. simpl. rewrite Hbody.
    destruct (read t (hi - 1)) as [v|] eqn:Hv; simpl; [|done].
    destruct (setCell t (pos hi).1 (pos hi).2 v) as [t1|] eqn:Ht1; simpl; [|done].
    intros Hrest. apply IH in Hrest as [Hcount Hlo]; [|lia..].
    rewrite (read_write_ne _ _ _ _ (hi - 1) Ht1) in Hcount by lia.
    rewrite (read_write_ne _ _ _ _ lo Ht1) in Hcount, Hlo by lia.
    apply marbles_on_setCell in Ht1. fold (read t hi) in Ht1.
    rewrite Hv in Hcount. split; [lia|done].
Qed.
End shift.

(** ** One routine for the four pushes

    The four methods are one routine up to the axis and the sense of the
    push.  [slide] is that routine: [pos] maps an index along the row or
    column of the push to board coordinates, [i] is the index of the pushed
    marble, [low] tells whether the push goes toward index 0, [d] is the
    letter of the push and [inv] the letter of the opposite push. *)
Definition slide (pos : Z → Z * Z) (i : Z) (low : bool) (d inv : string)
    (coor_tup : Z * Z) (player : KubaPlayer) (self : KubaGame)
  : option (bool * KubaGame) :=
  let look (t : board) (n : Z) := cellAt t (pos n).1 (pos n).2 in
  let far := if low then 0 else 6 in
  let temp := the_board self in
  let self := set_captured_marble None (set_temp_board (Some temp) self) in
  blocked ← (if decide (i ≠ (if low then 6 else 0))
             then val ← look temp (if low then i + 1 else i - 1);
                  Some (bool_decide (val ≠ X))
             else Some false);
  if (blocked : bool) then Some (false, self) else
  stop ← find_blank (look temp) (if low then range_down i (-1) else range i 7) far;
  let inverse_bool := bool_decide (stop = far) in
  edge ← (if decide (stop = far) then
            last ← look temp stop;
            if decide (last = get_color player) then Some None
            else if decide (last ≠ X) then Some (Some (false, Some last))
            else Some (Some (inverse_bool, None))
          else Some (Some (inverse_bool, None)));
  match edge with
  | None => Some (false, self)
  | Some (inverse_bool, captured) =>
      let self := set_captured_marble captured self in
      if undoes (no_go_move self) coor_tup d then Some (false, self) else
      temp ← for_each (if low then range stop i else range_down stop i)
                (λ num t, v ← look t (if low then num + 1 else num - 1);
                          setCell t (pos num).1 (pos num).2 v) temp;
      temp ← setCell temp (pos i).1 (pos i).2 X;
      let self := set_temp_board (Some temp) self in
      Some (true, set_no_go_move
                    (if (inverse_bool : bool)
                     then Some ((pos stop).1, (pos stop).2, inv) else None) self)
  end.

(** The row or column of a push, the index of the pushed marble along it,
    and the sense of the push. *)
Definition line (d : dir) (rc : Z * Z) (n : Z) : Z * Z :=
  match d with
  | Leftward | Rightward => (rc.1, n)
  | Forward | Backward => (n, rc.2)
  end.

Definition along (d : dir) (rc : Z * Z) : Z :=
  match d with
  | Leftward | Rightward => rc.2
  | Forward | Backward => rc.1
  end.

Definition toward_low (d : dir) : bool :=
  match d with
  | Leftward | Forward => true
  | Rightward | Backward => false
  end.

Lemma push_slide d rc pl s :
  push d rc pl s
  = slide (line d rc) (along d rc) (toward_low d) (dir_name d) (dir_name (opposite d))
          rc pl s.
Proof. destruct d, rc as [row column]; reflexivity. Qed.

Lemma line_inj d rc i j : line d rc i = line d rc j → i = j.
Proof. destruct d; simpl; congruence. Qed.

Lemma line_along d rc : line d rc (along d rc) = rc.
Proof. by destruct d, rc. Qed.

Lemma line_ahead d rc k :
  ahead d rc k = line d rc (if toward_low d then along d rc - k else along d rc + k).
Proof. by destruct d. Qed.

Lemma steps_along d rc :
  steps_to_edge d rc = if toward_low d then along d rc else 6 - along d rc.
Proof. by destruct d. Qed.

Lemma along_on_board d rc : on_board rc → 0 ≤ along d rc ≤ 6.
Proof. intros [??]. by destruct d. Qed.

Lemma line_on_board d rc n : on_board rc → 0 ≤ n ≤ 6 → on_board (line d rc n).
Proof. intros [??] ?. by destruct d. Qed.

(** ** What a push reads and writes *)

(** Two game objects that differ at most in the no-go move and in the
    two scratch attributes [_captured_marble] and [_temp_board]. *)
Definition same_position (s s' : KubaGame) : Prop :=
  players s' = players s ∧ winner s' = winner s ∧ turn s' = turn s
  ∧ the_board s' = the_board s
  ∧ red s' = red s ∧ white s' = white s ∧ black s' = black s.

Lemma same_position_refl s : same_position s s.
Proof. by repeat split. Qed.

Lemma same_position_trans s1 s2 s3 :
  same_position s1 s2 → same_position s2 s3 → same_position s1 s3.
Proof. unfold same_position. intros (?&?&?&?&?&?&?) (?&?&?&?&?&?&?). repeat split; congruence. Qed.

Lemma slide_frame pos i low d inv rc pl s ok s' :
  slide pos i low d inv rc pl s = Some (ok, s') →
  same_position s s' ∧ (ok = false → no_go_move s' = no_go_move s).
Proof.
  unfold slide. intros H.
  simplify_option_eq; repeat case_match; simplify_option_eq;
    by repeat split.
Qed.

Lemma push_frame d rc pl s ok s' :
  push d rc pl s = Some (ok, s') →
  same_position s s' ∧ (ok = false → no_go_move s' = no_go_move s).
Proof. rewrite push_slide. apply slide_frame. Qed.

(** Inversion of one bind of the option monad in hypothesis [H]. *)
Ltac bind_inv H x E :=
  match type of H with
  | (?e ≫= _) = Some _ => destruct e as [x|] eqn:E; simpl in H; [|discriminate H]
  end.

(** A push that goes through: where the scan stopped, what was captured,
    what the no-go move becomes and how many marbles the new board holds. *)
Lemma slide_true pos i low d inv rc pl s s' :
  (∀ a b, pos a = pos b → a = b) → 0 ≤ i ≤ 6 →
  slide pos i low d inv rc pl s = Some (true, s') →
  let look n := cellAt (the_board s) (pos n).1 (pos n).2 in
  let far := if low then 0 else 6 in
  ∃ stop t',
    (if low then 0 ≤ stop ≤ i else i ≤ stop ≤ 6)
    ∧ (∀ j, (if low then stop < j ≤ i else i ≤ j < stop) → is_marble (look j))
    ∧ undoes (no_go_move s) rc d = false
    ∧ temp_board s' = Some t'
    ∧ cellAt t' (pos i).1 (pos i).2 = Some X
    ∧ ((look stop = Some X ∧ captured_marble s' = None
        ∧ no_go_move s'
          = (if decide (stop = far) then Some ((pos far).1, (pos far).2, inv) else None)
        ∧ marbles_on t' = marbles_on (the_board s))
       ∨ (stop = far ∧ ∃ v, look far = Some v ∧ v ≠ X ∧ v ≠ get_color pl
          ∧ captured_marble s' = Some v ∧ no_go_move s' = None
          ∧ marbles_on t' = marbles_on (the_board s) - 1)).
Proof.
  intros Hinj Hi H look far. unfold slide in H. cbv zeta in H.
  bind_inv H blocked Hblocked. destruct blocked; [discriminate H|].
  bind_inv H stop Hstop. bind_inv H edge Hedge.
  destruct edge as [[inverse_bool captured]|]; [|discriminate H].
  simpl in H. destruct (undoes _ _ _) eqn:Hundo; [discriminate H|].
  bind_inv H t1 Ht1. bind_inv H t2 Ht2. injection H as <-. simpl.
  fold far in Hstop, Hedge.
  (* the cell of the pushed marble still holds it after the shift *)
  assert (Hcount : 0 ≤ (if low then i - stop else stop - i) →
            marbles_on t2 + weight (look stop) = marbles_on (the_board s)).
  { intros Hle. destruct low.
    - eapply (shift_toward_low pos Hinj) in Ht1 as [Hc Hkeep]; [|done|lia].
      apply marbles_on_setCell in Ht2. rewrite Hkeep in Ht2.
      fold (look i) in Ht2, Hc. fold (look stop) in Hc.
      change (weight (Some X)) with 0 in Ht2. lia.
    - eapply (shift_toward_high pos Hinj) in Ht1 as [Hc Hkeep]; [|done|lia].
      apply marbles_on_setCell in Ht2. rewrite Hkeep in Ht2.
      fold (look i) in Ht2, Hc. fold (look stop) in Hc.
      change (weight (Some X)) with 0 in Ht2. lia. }
  assert (Hscan : (look stop = Some X
                   ∧ (if low then 0 ≤ stop ≤ i else i ≤ stop ≤ 6)
                   ∧ ∀ j, (if low then stop < j ≤ i else i ≤ j < stop) → is_marble (look j))
                  ∨ (stop = far ∧ is_marble (look far)
                     ∧ ∀ j, (if low then stop < j ≤ i else i ≤ j < stop) → is_marble (look j))).
  { destruct low.
    - apply find_blank_range_down in Hstop as [(? & ? & ?)|[-> Hall]].
      + left. split; [done|]. split; [lia|done].
      + right. split; [done|]. split; [apply Hall; unfold far; lia|].
        intros j Hj. apply Hall. unfold far in Hj. lia.
    - apply find_blank_range in Hstop as [(? & ? & ?)|[-> Hall]].
      + left. split; [done|]. split; [lia|done].
      + right. split; [done|]. split; [apply Hall; unfold far; lia|].
        intros j Hj. apply Hall. unfold far in Hj. lia. }
  exists stop, t2.
  assert (Hrange : if low then 0 ≤ stop ≤ i else i ≤ stop ≤ 6).
  { destruct Hscan as [(_ & ? & _)|(-> & _)]; [done|]. unfold far. destruct low; lia. }
  split; [done|]. split; [by destruct Hscan as [(_ & _ & ?)|(_ & _ & ?)]|].
  split; [done|]. split; [done|].
  split; [by eapply cellAt_setCell_eq|].
  specialize (Hcount ltac:(destruct low; lia)).
  subst look. cbv beta in *.
  case_decide as Hfar.
  - destruct (cellAt (the_board s) (pos stop).1 (pos stop).2) as [last|] eqn:Hlast;
      simpl in Hedge; [|discriminate Hedge].
    case_decide; [discriminate Hedge|]. case_decide as HX.
    + injection Hedge as <- <-. right. split; [done|]. exists last. subst stop.
      unfold weight in Hcount. rewrite decide_False in Hcount by done.
      repeat split; try done. lia.
    + injection Hedge as <- <-. left. subst last.
      rewrite bool_decide_true by done. rewrite Hfar.
      change (weight (Some X)) with 0 in Hcount.
      repeat split; try done. lia.
  - injection Hedge as <- <-. rewrite bool_decide_false by done.
    destruct Hscan as [(HX & _)|(? & _)]; [|done]. left.
    rewrite HX in Hcount. change (weight (Some X)) with 0 in Hcount.
    repeat split; try done. lia.
Qed.

(** The outcome of a push depends on the game object only through the
    board and through whether the no-go move forbids this very push. *)
Lemma slide_agree pos i low d inv rc pl s1 s2 ok s1' :
  the_board s1 = the_board s2 →
  undoes (no_go_move s1) rc d = undoes (no_go_move s2) rc d →
  slide pos i low d inv rc pl s1 = Some (ok, s1') →
  ∃ s2', slide pos i low d inv rc pl s2 = Some (ok, s2')
         ∧ temp_board s2' = temp_board s1'
         ∧ captured_marble s2' = captured_marble s1'
         ∧ (ok = true → no_go_move s2' = no_go_move s1').
Proof.
  intros Hb Hu H. unfold slide in *. simpl in *. rewrite <- Hb, <- Hu.
  simplify_option_eq; repeat case_match; simplify_option_eq;
    eexists; (split; [reflexivity|]); by repeat split.
Qed.

Lemma push_agree d rc pl s1 s2 ok s1' :
  the_board s1 = the_board s2 →
  undoes (no_go_move s1) rc (dir_name d) = undoes (no_go_move s2) rc (dir_name d) →
  push d rc pl s1 = Some (ok, s1') →
  ∃ s2', push d rc pl s2 = Some (ok, s2')
         ∧ temp_board s2' = temp_board s1'
         ∧ captured_marble s2' = captured_marble s1'
         ∧ (ok = true → no_go_move s2' = no_go_move s1').
Proof. rewrite !push_slide. apply slide_agree. Qed.

(** A push the no-go move forbids is rejected. *)
Lemma slide_undoes pos i low d inv rc pl s ok s' :
  undoes (no_go_move s) rc d = true →
  slide pos i low d inv rc pl s = Some (ok, s') → ok = false.
Proof.
  intros Hu H. unfold slide in *. simpl in *. rewrite Hu in H.
  simplify_option_eq; repeat case_match; by simplify_option_eq.
Qed.

(** With the no-go move left aside, a push goes through whenever it goes
    through with the no-go move in force. *)
Lemma slide_without_no_go pos i low d inv rc pl s s' :
  slide pos i low d inv rc pl s = Some (true, s') →
  ∃ s2', slide pos i low d inv rc pl (set_no_go_move None s) = Some (true, s2')
         ∧ temp_board s2' = temp_board s'
         ∧ captured_marble s2' = captured_marble s'
         ∧ no_go_move s2' = no_go_move s'.
Proof.
  intros H.
  destruct (undoes (no_go_move s) rc d) eqn:Hu.
  { by apply (slide_undoes _ _ _ _ _ _ _ _ _ _ Hu) in H. }
  eapply (slide_agree _ _ _ _ _ _ _ s (set_no_go_move None s)) in H
    as (s2' & ? & ? & ? & Hn); [|done|by rewrite Hu].
  exists s2'. repeat split; try done. by apply Hn.
Qed.

(** The push raises nothing on a 7x7 board when the marble is on it. *)
Lemma slide_is_Some pos i low d inv rc pl s :
  (∀ n, 0 ≤ n ≤ 6 → on_board (pos n)) →
  board_ok (the_board s) → 0 ≤ i ≤ 6 →
  is_Some (slide pos i low d inv rc pl s).
Proof.
  intros Hpos Hok Hi. unfold slide. cbv zeta.
  assert (Hlook : ∀ t n, board_ok t → 0 ≤ n ≤ 6 →
            is_Some (cellAt t (pos n).1 (pos n).2)).
  { intros t n Ht Hn. apply cellAt_is_Some; auto. }
  (* the cell behind the marble *)
  destruct (if decide (i ≠ (if low then 6 else 0)) then _ else _) as [blocked|] eqn:Hb.
  2:{ case_decide as Hne; [|done].
      destruct (Hlook (the_board s) (if low then i + 1 else i - 1) Hok) as [v Hv].
      { destruct low; lia. }
      rewrite Hv in Hb. done. }
  simpl. destruct blocked; [by eexists|].
  (* the scan *)
  destruct (find_blank_is_Some (λ n, cellAt (the_board s) (pos n).1 (pos n).2)
              (if low then range_down i (-1) else range i 7) (if low then 0 else 6))
    as [stop Hstop].
  { apply Forall_forall. intros n Hn. apply Hlook; [done|].
    destruct low.
    - unfold range_down in Hn. apply list_elem_of_fmap in Hn as (k & -> & Hk).
      apply elem_of_seqZ in Hk. lia.
    - apply elem_of_range in Hn. lia. }
  rewrite Hstop. simpl.
  assert (Hrange : if low then 0 ≤ stop ≤ i else i ≤ stop ≤ 6).
  { destruct low.
    - apply find_blank_range_down in Hstop as [(? & _)|[-> _]]; lia.
    - apply find_blank_range in Hstop as [(? & _)|[-> _]]; lia. }
  destruct (Hlook (the_board s) stop Hok) as [last Hlast]; [destruct low; lia|].
  rewrite Hlast. simpl.
  destruct (if decide (stop = _) then _ else _) as [edge|] eqn:Hedge.
  2:{ repeat case_decide; done. }
  simpl. destruct edge as [[inverse_bool captured]|]; [|by eexists].
  destruct (undoes _ _ _); [by eexists|].
  (* the shift *)
  destruct (for_each_is_Some
              (if low then range stop i else range_down stop i)
              (λ num t, v ← cellAt t (pos (if low then num + 1 else num - 1)).1
                                     (pos (if low then num + 1 else num - 1)).2;
                        setCell t (pos num).1 (pos num).2 v)
              (the_board s)) as [t1 Ht1]; [|done|].
  { intros num u Hnum Hu.
    assert (Hn : if low then stop ≤ num < i else i < num ≤ stop).
    { destruct low.
      - apply elem_of_range in Hnum. lia.
      - unfold range_down in Hnum. apply list_elem_of_fmap in Hnum as (k & -> & Hk).
        apply elem_of_seqZ in Hk. lia. }
    destruct (Hlook u (if low then num + 1 else num - 1) Hu) as [v Hv];
      [destruct low; lia|].
    rewrite Hv. simpl.
    destruct (setCell_is_Some u (pos num).1 (pos num).2 v) as [u' Hu'].
    { apply Hlook; [done|]. destruct low; lia. }
    exists u'. split; [done|]. by eapply setCell_board_ok. }
  rewrite Ht1. simpl.
  assert (board_ok t1) as Hok1.
  { eapply for_each_board_ok; [|exact Hok|exact Ht1].
    intros num u u' Hbody Hu. simpl in Hbody.
    destruct (cellAt u _ _); simplify_eq/=. by eapply setCell_board_ok. }
  destruct (setCell_is_Some t1 (pos i).1 (pos i).2 X) as [t2 Ht2]; [by apply Hlook|].
  rewrite Ht2. simpl. by eexists.
Qed.

Lemma slide_temp_ok pos i low d inv rc pl s s' t :
  board_ok (the_board s) →
  slide pos i low d inv rc pl s = Some (true, s') →
  temp_board s' = Some t → board_ok t.
Proof.
  intros Hok H Ht. unfold slide in H. cbv zeta in H.
  bind_inv H blocked Hblocked. destruct blocked; [discriminate H|].
  bind_inv H stop Hstop. bind_inv H edge Hedge.
  destruct edge as [[inverse_bool captured]|]; [|discriminate H].
  simpl in H. destruct (undoes _ _ _); [discriminate H|].
  bind_inv H t1 Ht1. bind_inv H t2 Ht2. injection H as <-. simpl in Ht.
  injection Ht as <-.
  eapply setCell_board_ok; [|exact Ht2].
  eapply for_each_board_ok; [|exact Hok|exact Ht1].
  intros num u u' Hbody Hu. simpl in Hbody.
  destruct (cellAt u _ _); simplify_eq/=. by eapply setCell_board_ok.
Qed.

Lemma push_temp_ok d rc pl s s' t :
  board_ok (the_board s) → push d rc pl s = Some (true, s') →
  temp_board s' = Some t → board_ok t.
Proof. rewrite push_slide. apply slide_temp_ok. Qed.

Lemma push_is_Some d rc pl s :
  board_ok (the_board s) → on_board rc → is_Some (push d rc pl s).
Proof.
  intros Hok Hon. rewrite push_slide. apply slide_is_Some; [|done|].
  - intros n Hn. by apply line_on_board.
  - by apply along_on_board.
Qed.

Lemma push_undoes d rc pl s ok s' :
  undoes (no_go_move s) rc (dir_name d) = true →
  push d rc pl s = Some (ok, s') → ok = false.
Proof. rewrite push_slide. apply slide_undoes. Qed.

Lemma push_without_no_go d rc pl s s' :
  push d rc pl s = Some (true, s') →
  ∃ s2', push d rc pl (set_no_go_move None s) = Some (true, s2')
         ∧ temp_board s2' = temp_board s'
         ∧ captured_marble s2' = captured_marble s'
         ∧ no_go_move s2' = no_go_move s'.
Proof. rewrite !push_slide. apply slide_without_no_go. Qed.

(** The no-go move a push in direction [d] from [rc] leaves when its
    first empty cell is the last cell of the line. *)
Definition inverse_of (d : dir) (rc : Z * Z) : token :=
  ((far_edge d rc).1, (far_edge d rc).2, dir_name (opposite d)).

(** A push that goes through, in the vocabulary of the specification. *)
Lemma push_true d rc pl s s' :
  on_board rc → push d rc pl s = Some (true, s') →
  ∃ k t',
    0 ≤ k ≤ steps_to_edge d rc
    ∧ (∀ j, 0 ≤ j < k → marble_at (the_board s) (ahead d rc j))
    ∧ undoes (no_go_move s) rc (dir_name d) = false
    ∧ temp_board s' = Some t'
    ∧ cellAt t' rc.1 rc.2 = Some X
    ∧ ((blank_at (the_board s) (ahead d rc k) ∧ captured_marble s' = None
        ∧ no_go_move s'
          = (if decide (k = steps_to_edge d rc) then Some (inverse_of d rc) else None)
        ∧ marbles_on t' = marbles_on (the_board s))
       ∨ (k = steps_to_edge d rc
          ∧ ∃ v, cellAt (the_board s) (far_edge d rc).1 (far_edge d rc).2 = Some v
                 ∧ v ≠ X ∧ v ≠ get_color pl
                 ∧ captured_marble s' = Some v ∧ no_go_move s' = None
                 ∧ marbles_on t' = marbles_on (the_board s) - 1)).
Proof.
  intros Hon H. rewrite push_slide in H.
  apply slide_true in H; [|apply line_inj|by apply along_on_board].
  destruct H as (stop & t' & Hrange & Hmarb & Hu & Ht & HX & Hcase).
  rewrite line_along in HX.
  exists (if toward_low d then along d rc - stop else stop - along d rc), t'.
  assert (Hstop : ahead d rc (if toward_low d then along d rc - stop
                              else stop - along d rc) = line d rc stop).
  { rewrite line_ahead. f_equal. destruct (toward_low d); lia. }
  assert (Hfar : far_edge d rc = line d rc (if toward_low d then 0 else 6)).
  { unfold far_edge. rewrite line_ahead, steps_along. f_equal.
    destruct (toward_low d); lia. }
  split; [rewrite steps_along; destruct (toward_low d); lia|].
  split.
  { intros j Hj. rewrite line_ahead. apply Hmarb. destruct (toward_low d); lia. }
  do 3 (split; [done|]).
  destruct Hcase as [(Hb & Hc & Hn & Hm)|(-> & v & Hv & ?)].
  - left. unfold blank_at. rewrite Hstop. split; [done|]. split; [done|].
    split; [|done]. rewrite Hn. unfold inverse_of. rewrite Hfar, steps_along.
    destruct (toward_low d); repeat case_decide; try done; lia.
  - right. rewrite Hfar. split; [|by exists v].
    rewrite steps_along. destruct (toward_low d); lia.
Qed.

(** ** The search for a legal move *)

#[local] Arguments range : simpl never.
#[local] Arguments range_down : simpl never.

(** Some push of the marble at [rc] goes through. *)
Definition legal_at (pl : KubaPlayer) (s : KubaGame) (rc : Z * Z) : Prop :=
  ∃ d s', push d rc pl s = Some (true, s').

Lemma push_transfer d rc pl s1 s2 ok s1' :
  the_board s1 = the_board s2 → no_go_move s1 = no_go_move s2 →
  push d rc pl s1 = Some (ok, s1') → ∃ s2', push d rc pl s2 = Some (ok, s2').
Proof.
  intros Hb Hn H. eapply push_agree in H as (s2' & ? & _); [by eexists|done|].
  by rewrite Hn.
Qed.

Lemma legal_at_transfer pl s1 s2 rc :
  the_board s1 = the_board s2 → no_go_move s1 = no_go_move s2 →
  legal_at pl s1 rc → legal_at pl s2 rc.
Proof.
  intros Hb Hn (d & s' & H). eapply push_transfer in H as [s2' ?]; [|done..].
  by exists d, s2'.
Qed.

(** The four trial pushes of one cell, chained as in the loop body. *)
Lemma four_trials rc pl s tl s1 tr s2 tf s3 tb s4 :
  move_left rc pl s = Some (tl, s1) →
  move_right rc pl s1 = Some (tr, s2) →
  move_forward rc pl s2 = Some (tf, s3) →
  move_backward rc pl s3 = Some (tb, s4) →
  same_position s s4
  ∧ (tl || tr || tf || tb = false → no_go_move s4 = no_go_move s ∧ ¬ legal_at pl s rc)
  ∧ (tl || tr || tf || tb = true → legal_at pl s rc).
Proof.
  intros H1 H2 H3 H4.
  pose proof (push_frame Leftward _ _ _ _ _ H1) as [F1 N1].
  pose proof (push_frame Rightward _ _ _ _ _ H2) as [F2 N2].
  pose proof (push_frame Forward _ _ _ _ _ H3) as [F3 N3].
  pose proof (push_frame Backward _ _ _ _ _ H4) as [F4 N4].
  split; [eauto using same_position_trans|].
  assert (B1 : the_board s1 = the_board s) by apply F1.
  assert (B2 : the_board s2 = the_board s1) by apply F2.
  assert (B3 : the_board s3 = the_board s2) by apply F3.
  destruct tl.
  { split; [done|]. intros _. by exists Leftward, s1. }
  specialize (N1 eq_refl).
  destruct (push_transfer Rightward _ _ s1 s _ _ B1 N1 H2) as [s2' H2'].
  destruct tr.
  { split; [done|]. intros _. by exists Rightward, s2'. }
  specialize (N2 eq_refl).
  destruct (push_transfer Forward _ _ s2 s _ _ ltac:(congruence) ltac:(congruence) H3)
    as [s3' H3'].
  destruct tf.
  { split; [done|]. intros _. by exists Forward, s3'. }
  specialize (N3 eq_refl).
  destruct (push_transfer Backward _ _ s3 s _ _ ltac:(congruence) ltac:(congruence) H4)
    as [s4' H4'].
  destruct tb.
  { split; [done|]. intros _. by exists Backward, s4'. }
  specialize (N4 eq_refl).
  split; [|done]. intros _. split; [by rewrite N4, N3, N2|].
  intros ([] & s' & Hd); simpl in *;
    [rewrite Hd in H1|rewrite Hd in H2'|rewrite Hd in H3'|rewrite Hd in H4'];
    discriminate.
Qed.

Lemma try_columns_spec row cols pl cm s cm' s' :
  try_columns row cols pl cm s = Some (cm', s') →
  same_position s s'
  ∧ (cm' = false →
       cm = false ∧ no_go_move s' = no_go_move s
       ∧ ∀ c, c ∈ cols → cellAt (the_board s) row c = Some (get_color pl) →
              ¬ legal_at pl s (row, c))
  ∧ (cm' = true →
       cm = true
       ∨ ∃ c, c ∈ cols ∧ cellAt (the_board s) row c = Some (get_color pl)
              ∧ legal_at pl s (row, c)).
Proof.
  revert s. induction cols as [|column rest IH]; intros s H; simpl in H.
  { injection H as <- <-. split; [apply same_position_refl|].
    split; [|by left]. intros ->. repeat split. intros c Hc. by apply elem_of_nil in Hc. }
  bind_inv H cl Hcell. case_decide as Hcol.
  - bind_inv H r1 H1. destruct r1 as [tl s1]. simpl in H.
    bind_inv H r2 H2. destruct r2 as [tr s2]. simpl in H.
    bind_inv H r3 H3. destruct r3 as [tf s3]. simpl in H.
    bind_inv H r4 H4. destruct r4 as [tb s4]. simpl in H.
    destruct (four_trials _ _ _ _ _ _ _ _ _ _ _ H1 H2 H3 H4) as (F & Hno & Hyes).
    destruct (tl || tr || tf || tb) eqn:Hany.
    + injection H as <- <-. split; [done|]. split; [done|].
      intros _. right. exists column. split; [left|]. split; [congruence|]. by apply Hyes.
    + destruct (Hno eq_refl) as [Hn Hnot].
      apply IH in H as (F' & Hfalse & Htrue).
      assert (Hb : the_board s4 = the_board s) by apply F.
      split; [eauto using same_position_trans|]. split.
      * intros Hcm. destruct (Hfalse Hcm) as (-> & Hn' & Hall).
        split; [done|]. split; [congruence|].
        intros c [->|Hc]%elem_of_cons Hc'; [done|].
        intros Hl. eapply (Hall c Hc); [by rewrite Hb|].
        by eapply legal_at_transfer; [..|exact Hl].
      * intros Hcm. destruct (Htrue Hcm) as [->|(c & Hc & Hc' & Hl)]; [by left|].
        right. exists c. split; [by right|]. split; [by rewrite <- Hb|].
        by eapply legal_at_transfer; [..|exact Hl].
  - apply IH in H as (F' & Hfalse & Htrue).
    split; [done|]. split.
    + intros Hcm. destruct (Hfalse Hcm) as (-> & Hn' & Hall).
      repeat split; [done|].
      intros c [->|Hc]%elem_of_cons Hc'; [congruence|]. by apply Hall.
    + intros Hcm. destruct (Htrue Hcm) as [->|(c & Hc & Hc' & Hl)]; [by left|].
      right. exists c. split; [by right|done].
Qed.

Lemma try_rows_cons row rest pl cm s :
  try_rows (row :: rest) pl cm s
  = ('(cm, s) ← try_columns row (range 0 7) pl cm s; try_rows rest pl cm s).
Proof. reflexivity. Qed.

Lemma try_rows_spec rows pl cm s cm' s' :
  try_rows rows pl cm s = Some (cm', s') →
  same_position s s'
  ∧ (cm' = false →
       cm = false ∧ no_go_move s' = no_go_move s
       ∧ ∀ r c, r ∈ rows → c ∈ range 0 7 →
                cellAt (the_board s) r c = Some (get_color pl) → ¬ legal_at pl s (r, c))
  ∧ (cm' = true →
       cm = true
       ∨ ∃ r c, r ∈ rows ∧ c ∈ range 0 7
                ∧ cellAt (the_board s) r c = Some (get_color pl) ∧ legal_at pl s (r, c)).
Proof.
  revert cm s. induction rows as [|row rest IH]; intros cm s H.
  { injection H as <- <-. split; [apply same_position_refl|].
    split; [|by left]. intros ->. repeat split. intros r c Hr. by apply elem_of_nil in Hr. }
  rewrite try_rows_cons in H. bind_inv H r1 H1. destruct r1 as [cm1 s1]. simpl in H.
  apply try_columns_spec in H1 as (F1 & Hfalse1 & Htrue1).
  apply IH in H as (F & Hfalse & Htrue).
  assert (Hb : the_board s1 = the_board s) by apply F1.
  split; [eauto using same_position_trans|]. split.
  - intros Hcm. destruct (Hfalse Hcm) as (-> & Hn & Hall).
    destruct (Hfalse1 eq_refl) as (-> & Hn1 & Hall1).
    split; [done|]. split; [congruence|].
    intros r c [->|Hr]%elem_of_cons Hc Hc'; [by apply Hall1|].
    intros Hl. eapply (Hall r c Hr Hc); [by rewrite Hb|].
    by eapply legal_at_transfer; [..|exact Hl].
  - intros Hcm. destruct (Htrue Hcm) as [->|(r & c & Hr & Hc & Hc' & Hl)].
    + destruct (Htrue1 eq_refl) as [->|(c & Hc & Hc' & Hl)]; [by left|].
      right. exists row, c. split; [left|done].
    + destruct cm1.
      * destruct (Htrue1 eq_refl) as [->|(c1 & Hc1 & Hc1' & Hl1)]; [by left|].
        right. exists row, c1. split; [left|done].
      * destruct (Hfalse1 eq_refl) as (-> & Hn1 & _).
        right. exists r, c. split; [by right|]. split; [done|].
        split; [by rewrite <- Hb|]. by eapply legal_at_transfer; [..|exact Hl].
Qed.

(** The search finds a legal move exactly when there is one, the no-go
    move of the game taken as it stands; it leaves the position and the
    no-go move as they were. *)
Lemma any_legal_move_spec pl s cm s' :
  any_legal_move pl s = Some (cm, s') →
  same_position s s' ∧ no_go_move s' = no_go_move s
  ∧ (cm = true ↔ has_legal_push pl s).
Proof.
  unfold any_legal_move. intros H.
  bind_inv H r1 H1. destruct r1 as [cm1 s1]. simpl in H. injection H as <- <-.
  apply try_rows_spec in H1 as (F & Hfalse & Htrue).
  split; [apply F|]. split; [done|]. split.
  - intros Hcm. destruct (Htrue Hcm) as [?|(r & c & Hr & Hc & Hc' & d & s' & Hl)]; [done|].
    exists (r, c), d, s'. apply elem_of_range in Hr, Hc.
    split; [unfold on_board; simpl; lia|done].
  - intros (rc & d & s' & [Hr Hc] & Hc' & Hl).
    destruct cm1; [done|]. destruct (Hfalse eq_refl) as (_ & _ & Hall).
    destruct rc as [r c]. simpl in *.
    exfalso. eapply (Hall r c); [apply elem_of_range; lia..|done|].
    by exists d, s'.
Qed.

Lemma try_columns_is_Some row cols pl cm s :
  board_ok (the_board s) → 0 ≤ row ≤ 6 → Forall (λ c, 0 ≤ c ≤ 6) cols →
  is_Some (try_columns row cols pl cm s).
Proof.
  intros Hok Hrow Hcols. revert s Hok.
  induction Hcols as [|column rest Hc _ IH]; intros s Hok; simpl; [by eexists|].
  assert (Hon : on_board (row, column)) by done.
  destruct (cellAt_is_Some _ _ Hok Hon) as [v Hv]. simpl in Hv. rewrite Hv. simpl.
  case_decide; [|by apply IH].
  destruct (push_is_Some Leftward _ pl s Hok Hon) as [[tl s1] H1].
  simpl in H1. rewrite H1. simpl.
  assert (Hok1 : board_ok (the_board s1)).
  { apply (push_frame Leftward) in H1 as [(_&_&_&->&_) _]. done. }
  destruct (push_is_Some Rightward _ pl s1 Hok1 Hon) as [[tr s2] H2].
  simpl in H2. rewrite H2. simpl.
  assert (Hok2 : board_ok (the_board s2)).
  { apply (push_frame Rightward) in H2 as [(_&_&_&->&_) _]. done. }
  destruct (push_is_Some Forward _ pl s2 Hok2 Hon) as [[tf s3] H3].
  simpl in H3. rewrite H3. simpl.
  assert (Hok3 : board_ok (the_board s3)).
  { apply (push_frame Forward) in H3 as [(_&_&_&->&_) _]. done. }
  destruct (push_is_Some Backward _ pl s3 Hok3 Hon) as [[tb s4] H4].
  simpl in H4. rewrite H4. simpl.
  assert (Hok4 : board_ok (the_board s4)).
  { apply (push_frame Backward) in H4 as [(_&_&_&->&_) _]. done. }
  destruct (tl || tr || tf || tb); [by eexists|by apply IH].
Qed.

Lemma range_0_7_on_board : Forall (λ c, 0 ≤ c ≤ 6) (range 0 7).
Proof. apply Forall_forall. intros c Hc%elem_of_range. lia. Qed.

Lemma try_rows_is_Some rows pl cm s :
  board_ok (the_board s) → Forall (λ r, 0 ≤ r ≤ 6) rows →
  is_Some (try_rows rows pl cm s).
Proof.
  intros Hok Hrows. revert cm s Hok.
  induction Hrows as [|row rest Hr _ IH]; intros cm s Hok; [by eexists|].
  rewrite try_rows_cons.
  destruct (try_columns_is_Some row (range 0 7) pl cm s Hok Hr range_0_7_on_board)
    as [[cm1 s1] H1].
  rewrite H1. simpl. apply IH.
  apply try_columns_spec in H1 as [(_&_&_&->&_) _]. done.
Qed.

Lemma any_legal_move_is_Some pl s :
  board_ok (the_board s) → is_Some (any_legal_move pl s).
Proof.
  intros Hok. unfold any_legal_move.
  destruct (try_rows_is_Some (range 0 7) pl false s Hok range_0_7_on_board)
    as [[cm1 s1] H1].
  rewrite H1. by eexists.
Qed.

(** ** The shape of a call of [make_move] *)

(** Lines 155-156: the game object once the first caller is recorded. *)
Definition with_turn (playername : string) (self : KubaGame) : KubaGame :=
  if decide (turn self = None) then set_turn (Some playername) self else self.

(** Lines 232-258: what [make_move] does with the game object a
    successful push returned, [new_board] being its temporary board. *)
Definition commit (playername : string) (curr : Z) (new_board : board)
    (self : KubaGame) : KubaGame :=
  let self := match captured_marble self with
              | Some c => update_marbles c curr self
              | None => self
              end in
  let self := set_board new_board self in
  let current_player := player_at curr self in
  let self := if bool_decide (8 ≤ get_opponent_marbles current_player)
                 || bool_decide (7 ≤ get_red current_player)
              then set_winner (Some playername) self else self in
  if decide (curr = 0)
  then set_turn (Some (get_name (players self).2)) self
  else set_turn (Some (get_name (players self).1)) self.

Lemma with_turn_frame p s :
  players (with_turn p s) = players s ∧ winner (with_turn p s) = winner s
  ∧ the_board (with_turn p s) = the_board s
  ∧ red (with_turn p s) = red s ∧ white (with_turn p s) = white s
  ∧ black (with_turn p s) = black s
  ∧ no_go_move (with_turn p s) = no_go_move s.
Proof. unfold with_turn. by case_decide. Qed.

Lemma with_turn_turn p s :
  turn (with_turn p s) = match turn s with None => Some p | Some q => Some q end.
Proof. unfold with_turn. case_decide as H; [by rewrite H|]. by destruct (turn s). Qed.

(** For coordinates that are not negative [get_marble] reads the cell as
    the pushes do. *)
Lemma get_marble_on_board rc s :
  0 ≤ rc.1 → 0 ≤ rc.2 → get_marble rc s = cellAt (the_board s) rc.1 rc.2.
Proof.
  intros H1 H2. unfold get_marble, cellAt, index_wrap, index.
  rewrite !decide_True by done. destruct (the_board s !! Z.to_nat rc.1); [|done].
  simpl. by rewrite !decide_True by done.
Qed.

(** A call that returns [True]. *)
Lemma make_move_true p rc d s s' :
  make_move p rc d s = Some (true, s') →
  ∃ curr dd s1 s2 t,
    turn (with_turn p s) = Some p ∧ winner s = None ∧ on_board rc
    ∧ resolve p s = Some curr
    ∧ cellAt (the_board s) rc.1 rc.2 = Some (get_color (player_at curr s))
    ∧ any_legal_move (player_at curr (with_turn p s)) (with_turn p s) = Some (true, s1)
    ∧ d = dir_name dd
    ∧ push dd rc (player_at curr (with_turn p s)) s1 = Some (true, s2)
    ∧ temp_board s2 = Some t
    ∧ s' = commit p curr t s2.
Proof.
  unfold make_move. fold (with_turn p s). cbv zeta.
  pose proof (with_turn_frame p s) as (Hpl & Hw & Hb & _).
  intros H.
  case_decide as Hturn; [discriminate H|].
  case_decide as Hwin; [discriminate H|].
  destruct (bool_decide _ || bool_decide _) eqn:Hrange; [discriminate H|].
  apply orb_false_elim in Hrange as [Hr Hc].
  apply bool_decide_eq_false in Hr, Hc.
  assert (Hon : on_board rc) by (unfold on_board; lia).
  fold (resolve p (with_turn p s)) in H.
  assert (Hres : resolve p (with_turn p s) = resolve p s).
  { unfold resolve. by rewrite Hpl. }
  destruct (resolve p (with_turn p s)) as [curr|] eqn:Hcurr; [|discriminate H].
  rewrite get_marble_on_board in H by lia. bind_inv H marble Hmarble.
  case_decide as Hcol; [discriminate H|].
  bind_inv H r1 H1. destruct r1 as [can_move s1]. simpl in H.
  destruct can_move; [|discriminate H]. simpl in H.
  bind_inv H pushed Hpushed.
  destruct pushed as [[temp s2]|]; [|discriminate H].
  destruct temp; [|discriminate H].
  bind_inv H t Ht. injection H as <-.
  assert (Hdir : ∃ dd, d = dir_name dd
                       ∧ push dd rc (player_at curr (with_turn p s)) s1 = Some (true, s2)).
  { repeat case_decide; subst;
      [exists Leftward|exists Rightward|exists Forward|exists Backward|discriminate Hpushed];
      (split; [done|]); simpl;
      match type of Hpushed with
      | Some <$> ?e = _ => destruct e as [[??]|]; by simplify_eq/=
      end. }
  destruct Hdir as (dd & -> & Hpush).
  exists curr, dd, s1, s2, t.
  split; [done|]. split; [congruence|]. split; [done|]. split; [done|].
  split.
  { rewrite Hb in Hmarble. rewrite Hmarble, Hcol. f_equal. f_equal.
    unfold player_at. by rewrite Hpl. }
  do 3 (split; [done|]). split; [|done].
  rewrite <- Ht. destruct (captured_marble s2); [|done].
  unfold update_marbles, update_player. by repeat case_decide.
Qed.

(** The guards a call passes before the search for a legal move. *)
Definition passes_guards (p : string) (rc : Z * Z) (curr : Z) (s : KubaGame) : Prop :=
  turn (with_turn p s) = Some p ∧ winner s = None ∧ on_board rc
  ∧ resolve p s = Some curr
  ∧ cellAt (the_board s) rc.1 rc.2 = Some (get_color (player_at curr s)).

Lemma player_at_with_turn curr p s : player_at curr (with_turn p s) = player_at curr s.
Proof. unfold player_at. by destruct (with_turn_frame p s) as [-> _]. Qed.

(** A call that returns [False]: it failed one of the guards, or the
    search found no legal move, or the push itself was rejected. *)
Lemma make_move_false p rc d s s' :
  make_move p rc d s = Some (false, s') →
  (s' = with_turn p s ∧ ∀ curr, ¬ passes_guards p rc curr s)
  ∨ (∃ curr s1, passes_guards p rc curr s
       ∧ any_legal_move (player_at curr s) (with_turn p s) = Some (false, s1)
       ∧ s' = set_winner (Some (get_name (player_at (1 - curr) s))) s1)
  ∨ (∃ curr s1, passes_guards p rc curr s
       ∧ any_legal_move (player_at curr s) (with_turn p s) = Some (true, s1)
       ∧ ((s' = s1 ∧ ∀ dd, d ≠ dir_name dd)
          ∨ ∃ dd, d = dir_name dd ∧ push dd rc (player_at curr s) s1 = Some (false, s'))).
Proof.
  unfold make_move. fold (with_turn p s). cbv zeta.
  pose proof (with_turn_frame p s) as (Hpl & Hw & Hb & _).
  intros H.
  case_decide as Hturn.
  { injection H as <-. left. split; [done|]. by intros curr (? & _). }
  case_decide as Hwin.
  { injection H as <-. left. split; [done|]. intros curr (_ & ? & _). congruence. }
  destruct (bool_decide _ || bool_decide _) eqn:Hrange.
  { injection H as <-. left. split; [done|]. intros curr (_ & _ & [? ?] & _).
    apply orb_true_iff in Hrange as [Hr|Hr]; apply bool_decide_eq_true in Hr; lia. }
  apply orb_false_elim in Hrange as [Hr Hc].
  apply bool_decide_eq_false in Hr, Hc.
  assert (Hon : on_board rc) by (unfold on_board; lia).
  fold (resolve p (with_turn p s)) in H.
  assert (Hres : resolve p (with_turn p s) = resolve p s).
  { unfold resolve. by rewrite Hpl. }
  destruct (resolve p (with_turn p s)) as [curr|] eqn:Hcurr.
  2:{ injection H as <-. left. split; [done|]. intros curr (_ & _ & _ & ? & _). congruence. }
  rewrite get_marble_on_board in H by lia. bind_inv H marble Hmarble.
  rewrite !player_at_with_turn in *. rewrite Hb in Hmarble.
  case_decide as Hcol.
  { injection H as <-. left. split; [done|].
    intros curr' (_ & _ & _ & Hc' & Hcell).
    assert (curr' = curr) as -> by congruence. congruence. }
  assert (Hadm : passes_guards p rc curr s).
  { split; [done|]. split; [congruence|]. split; [done|]. split; [done|].
    by rewrite Hmarble, Hcol. }
  bind_inv H r1 H1. destruct r1 as [can_move s1]. simpl in H.
  destruct can_move; simpl in H.
  2:{ injection H as <-. right. left. by exists curr, s1. }
  right. right. exists curr, s1. split; [done|]. split; [done|].
  bind_inv H pushed Hpushed.
  destruct pushed as [[temp s2]|].
  2:{ injection H as <-. left. split; [done|].
      intros []; simpl; intros ->; simpl in Hpushed;
        match type of Hpushed with
        | Some <$> ?e = _ => destruct e as [[??]|]; by simplify_eq/=
        end. }
  destruct temp.
  { bind_inv H t Ht. discriminate H. }
  injection H as <-. right.
  repeat case_decide; subst;
    [exists Leftward|exists Rightward|exists Forward|exists Backward|discriminate Hpushed];
    (split; [done|]); simpl;
    match type of Hpushed with
    | Some <$> ?e = _ => destruct e as [[??]|]; by simplify_eq/=
    end.
Qed.

(** A call raises nothing on a 7x7 board. *)
Lemma make_move_is_Some p rc d s :
  board_ok (the_board s) → is_Some (make_move p rc d s).
Proof.
  intros Hok. unfold make_move. fold (with_turn p s). cbv zeta.
  pose proof (with_turn_frame p s) as (Hpl & Hw & Hb & _).
  case_decide as Hturn; [by eexists|].
  case_decide as Hwin; [by eexists|].
  destruct (bool_decide _ || bool_decide _) eqn:Hrange; [by eexists|].
  apply orb_false_elim in Hrange as [Hr Hc].
  apply bool_decide_eq_false in Hr, Hc.
  assert (Hon : on_board rc) by (unfold on_board; lia).
  destruct (if decide (get_name _ = p) then _ else _) as [curr|]; [|by eexists].
  rewrite get_marble_on_board by lia. rewrite Hb.
  destruct (cellAt_is_Some _ _ Hok Hon) as [marble ->]. simpl.
  case_decide; [by eexists|].
  destruct (any_legal_move_is_Some (player_at curr (with_turn p s)) (with_turn p s))
    as [[can_move s1] H1]; [by rewrite Hb|].
  rewrite H1. simpl.
  destruct can_move; simpl; [|by eexists].
  assert (Hok1 : board_ok (the_board s1)).
  { apply any_legal_move_spec in H1 as [(_&_&_&->&_) _]. by rewrite Hb. }
  assert (Hpush : ∀ dd, ∃ ok s2,
            push dd rc (player_at curr (with_turn p s)) s1 = Some (ok, s2)
            ∧ (ok = true → is_Some (temp_board s2))).
  { intros dd. destruct (push_is_Some dd rc (player_at curr (with_turn p s)) s1)
      as [[ok s2] H2]; [done..|].
    exists ok, s2. split; [done|]. intros ->.
    apply push_true in H2 as (? & t & _ & _ & _ & -> & _); [by eexists|done]. }
  assert (Hfin : ∀ ok s2, (ok = true → is_Some (temp_board s2)) →
            is_Some (if ok
                     then new_board ← temp_board
                            match captured_marble s2 with
                            | Some c => update_marbles c curr s2
                            | None => s2
                            end;
                          Some (true, commit p curr new_board s2)
                     else Some (false, s2))).
  { intros [] s2 Hs2; [|by eexists]. destruct (Hs2 eq_refl) as [t Ht].
    assert (temp_board match captured_marble s2 with
                       | Some c => update_marbles c curr s2
                       | None => s2
                       end = Some t) as ->.
    { rewrite <- Ht. destruct (captured_marble s2); [|done].
      unfold update_marbles, update_player. by repeat case_decide. }
    by eexists. }
  destruct (decide (d = "L"%string)).
  { destruct (Hpush Leftward) as (ok & s2 & Hp & Ht).
    simpl in Hp; rewrite Hp; simpl; apply (Hfin ok s2 Ht). }
  destruct (decide (d = "R"%string)).
  { destruct (Hpush Rightward) as (ok & s2 & Hp & Ht).
    simpl in Hp; rewrite Hp; simpl; apply (Hfin ok s2 Ht). }
  destruct (decide (d = "F"%string)).
  { destruct (Hpush Forward) as (ok & s2 & Hp & Ht).
    simpl in Hp; rewrite Hp; simpl; apply (Hfin ok s2 Ht). }
  destruct (decide (d = "B"%string)); [|by eexists].
  destruct (Hpush Backward) as (ok & s2 & Hp & Ht).
  simpl in Hp; rewrite Hp; simpl; apply (Hfin ok s2 Ht).
Qed.

(** ** What a committed push changes *)

(** The game object after the captures are booked (lines 233-234). *)
Definition booked (curr : Z) (self : KubaGame) : KubaGame :=
  match captured_marble self with
  | Some c => update_marbles c curr self
  | None => self
  end.

Lemma update_marbles_frame c curr s :
  winner (update_marbles c curr s) = winner s
  ∧ turn (update_marbles c curr s) = turn s
  ∧ the_board (update_marbles c curr s) = the_board s
  ∧ no_go_move (update_marbles c curr s) = no_go_move s
  ∧ get_name (players (update_marbles c curr s)).1 = get_name (players s).1
  ∧ get_name (players (update_marbles c curr s)).2 = get_name (players s).2
  ∧ get_color (players (update_marbles c curr s)).1 = get_color (players s).1
  ∧ get_color (players (update_marbles c curr s)).2 = get_color (players s).2.
Proof. unfold update_marbles, update_player. by repeat case_decide. Qed.

Lemma update_marbles_captures c curr s :
  captures (update_marbles c curr s) = captures s + 1.
Proof.
  unfold update_marbles, update_player, captures, captures_of.
  repeat case_decide; simpl; lia.
Qed.

Lemma update_marbles_counts c curr s :
  red (update_marbles c curr s) + white (update_marbles c curr s)
  + black (update_marbles c curr s) = red s + white s + black s - 1.
Proof.
  unfold update_marbles, update_player.
  repeat case_decide; simpl; lia.
Qed.

Lemma commit_board p curr t s : the_board (commit p curr t s) = t.
Proof. unfold commit. by repeat case_match. Qed.

Lemma commit_no_go p curr t s : no_go_move (commit p curr t s) = no_go_move s.
Proof.
  unfold commit. fold (booked curr s).
  assert (no_go_move (booked curr s) = no_go_move s) as <-.
  { unfold booked. destruct (captured_marble s); [|done]. apply update_marbles_frame. }
  by repeat case_match.
Qed.

Lemma commit_players p curr t s : players (commit p curr t s) = players (booked curr s).
Proof. unfold commit. fold (booked curr s). by repeat case_match. Qed.

Lemma commit_counts p curr t s :
  red (commit p curr t s) = red (booked curr s)
  ∧ white (commit p curr t s) = white (booked curr s)
  ∧ black (commit p curr t s) = black (booked curr s).
Proof. unfold commit. fold (booked curr s). by repeat case_match. Qed.

Lemma commit_winner p curr t s :
  winner (commit p curr t s)
  = if bool_decide (8 ≤ get_opponent_marbles (player_at curr (booked curr s)))
       || bool_decide (7 ≤ get_red (player_at curr (booked curr s)))
    then Some p else winner s.
Proof.
  unfold commit. fold (booked curr s).
  assert (winner (booked curr s) = winner s) as <-.
  { unfold booked. destruct (captured_marble s); [|done]. apply update_marbles_frame. }
  change (player_at curr (set_board t (booked curr s)))
    with (player_at curr (booked curr s)).
  by repeat case_match.
Qed.

Lemma booked_captures curr s :
  captures (booked curr s)
  = captures s + (if captured_marble s is Some _ then 1 else 0).
Proof.
  unfold booked. destruct (captured_marble s); [apply update_marbles_captures|lia].
Qed.

Lemma booked_counts curr s :
  red (booked curr s) + white (booked curr s) + black (booked curr s)
  = red s + white s + black s - (if captured_marble s is Some _ then 1 else 0).
Proof.
  unfold booked. destruct (captured_marble s); [apply update_marbles_counts|lia].
Qed.

Lemma dir_name_inj d1 d2 : dir_name d1 = dir_name d2 → d1 = d2.
Proof. by destruct d1, d2. Qed.

(** A rejected call leaves the board, the players, the tallies and the
    no-go move as they were. *)
Lemma make_move_false_frame p rc d s s' :
  make_move p rc d s = Some (false, s') →
  the_board s' = the_board s ∧ players s' = players s
  ∧ red s' = red s ∧ white s' = white s ∧ black s' = black s
  ∧ no_go_move s' = no_go_move s.
Proof.
  intros H. pose proof (with_turn_frame p s) as (Hpl & Hw & Hb & Hr & Hwh & Hbl & Hn).
  apply make_move_false in H
    as [[-> _]|[(curr & s1 & _ & H1 & ->)|(curr & s1 & _ & H1 & Hs')]]; [done|..].
  - apply any_legal_move_spec in H1 as ((?&?&?&?&?&?&?) & ? & _).
    simpl. repeat split; congruence.
  - apply any_legal_move_spec in H1 as ((?&?&?&?&?&?&?) & ? & _).
    destruct Hs' as [[-> _]|(dd & _ & Hpush)]; [repeat split; congruence|].
    apply push_frame in Hpush as [(?&?&?&?&?&?&?) Hno]. specialize (Hno eq_refl).
    repeat split; congruence.
Qed.

Lemma make_move_board_ok p rc d s ok s' :
  board_ok (the_board s) → make_move p rc d s = Some (ok, s') → board_ok (the_board s').
Proof.
  intros Hok H. destruct ok.
  - apply make_move_true in H
      as (curr & dd & s1 & s2 & t & _ & _ & _ & _ & _ & H1 & _ & H2 & Ht & ->).
    rewrite commit_board. eapply push_temp_ok; [|exact H2|exact Ht].
    apply any_legal_move_spec in H1 as [(_&_&_&->&_) _].
    by destruct (with_turn_frame p s) as (_ & _ & -> & _).
  - apply make_move_false_frame in H as [-> _]. done.
Qed.

(** ** Concrete games *)

(** The game after [make_move('PlayerA', (6, 5), 'F')] on a fresh board. *)
Definition after_first_move : KubaGame :=
  Eval vm_compute in
    default main_game (snd <$> make_move "PlayerA" (6, 5) "F" main_game).

(** The game after the first caller used a name that no player has. *)
Definition after_unknown_caller : KubaGame :=
  Eval vm_compute in
    default main_game (snd <$> make_move "Mallory" (0, 0) "R" main_game).

(** * The claims *)

(** C2 (the code departs from the claim).  The board laid out by
    [KubaGame.__init__] holds nine ['W'] marbles, not eight: besides the
    four corner blocks there is a ['W'] at row 2, column 6, whose mirror
    cell at row 4, column 0 is empty.  The board holds eight ['B'] and
    thirteen ['R'] marbles, and [get_marble_count] reports [(8, 8, 13)], so
    the tally of white marbles disagrees with the board from the start. *)
Theorem initial_board_has_nine_white pc_tup_1 pc_tup_2 :
  let g := KubaGame_init pc_tup_1 pc_tup_2 in
  count_color W (the_board g) = 9
  ∧ count_color B (the_board g) = 8
  ∧ count_color R (the_board g) = 13
  ∧ get_marble_count g = (8, 8, 13)
  ∧ cellAt (the_board g) 2 6 = Some W
  ∧ cellAt (the_board g) 4 0 = Some X.
Proof. by repeat split. Qed.

(** C3 (the code departs from the claim).  On a fresh game a first call
    of [make_move] under a name that neither player has returns [False]
    and still records that name as the player whose turn it is. *)
Theorem unknown_first_caller_is_recorded :
  resolve "Mallory" main_game = None
  ∧ get_current_turn main_game = None
  ∧ make_move "Mallory" (0, 0) "R" main_game = Some (false, after_unknown_caller)
  ∧ get_current_turn after_unknown_caller = Some "Mallory"%string.
Proof. repeat split; vm_compute; reflexivity. Qed.

(** Once the recorded name belongs to no player, every later call is
    rejected and the recorded name stays: the game cannot go on. *)
Lemma unknown_turn_blocks_the_game q p rc d s ok s' :
  turn s = Some q → resolve q s = None →
  make_move p rc d s = Some (ok, s') → ok = false ∧ turn s' = Some q.
Proof.
  intros Hq Hres H.
  assert (Hwt : with_turn p s = s).
  { unfold with_turn. rewrite decide_False; [done|]. by rewrite Hq. }
  destruct ok.
  - apply make_move_true in H as (curr & _ & _ & _ & _ & Ht & _ & _ & Hcurr & _).
    rewrite Hwt, Hq in Ht. injection Ht as ->. congruence.
  - split; [done|].
    apply make_move_false in H
      as [[-> _]|[(curr & s1 & (Ht & _ & _ & Hcurr & _) & _)
                 |(curr & s1 & (Ht & _ & _ & Hcurr & _) & _)]].
    + by rewrite Hwt.
    + rewrite Hwt, Hq in Ht. injection Ht as ->. congruence.
    + rewrite Hwt, Hq in Ht. injection Ht as ->. congruence.
Qed.

(** The game after ['PlayerB'] opened with [(0, 6), 'L'], and then after
    ['PlayerA'] answered with [(2, 6), 'F']: that push moves the line of
    column 6 into the empty corner cell. *)
Definition after_b_left : KubaGame :=
  Eval vm_compute in
    default main_game (snd <$> make_move "PlayerB" (0, 6) "L" main_game).

Definition after_a_forward : KubaGame :=
  Eval vm_compute in
    default main_game (snd <$> make_move "PlayerA" (2, 6) "F" after_b_left).

(** C1 as stated fails.  After ['PlayerB'] opened with [(0, 6), 'L'], the
    push [(2, 6), 'F'] of ['PlayerA'] goes through and captures nothing.
    The first empty cell its scan meets is the far-edge cell [(0, 6)]
    itself, not a cell before it, and the cell it empties is [(2, 6)]; yet
    the no-go move is set, and it names [(0, 6)], where the head of the
    pushed line now sits, with the opposite direction. *)
Lemma no_go_names_the_far_edge :
  make_move "PlayerA" (2, 6) "F" after_b_left = Some (true, after_a_forward)
  ∧ first_blank_after (the_board after_b_left) Forward (2, 6) 2
  ∧ steps_to_edge Forward (2, 6) = 2
  ∧ captures after_a_forward = captures after_b_left
  ∧ get_marble (2, 6) after_b_left = Some W
  ∧ get_marble (2, 6) after_a_forward = Some X
  ∧ get_marble (0, 6) after_a_forward = Some B
  ∧ no_go_move after_a_forward = Some (0, 6, "B"%string)
  ∧ no_go_move after_a_forward ≠ Some (2, 6, "B"%string).
Proof.
  split; [vm_compute; reflexivity|]. split.
  { split; [by vm_compute|]. split; [by vm_compute|].
    intros j Hj. assert (j = 0 ∨ j = 1) as [-> | ->] by lia.
    - exists W. by vm_compute.
    - exists B. by vm_compute. }
  repeat split; try (vm_compute; reflexivity). discriminate.
Qed.

(** What a call that returns [True] did: it named a direction, emptied
    the requested cell, and either met a first empty cell on the line and
    captured nothing, or met none and captured one marble. *)
Lemma accepted_call_outcome p rc d s s' :
  make_move p rc d s = Some (true, s') →
  ∃ dd, d = dir_name dd
    ∧ on_board rc
    ∧ cellAt (the_board s') rc.1 rc.2 = Some X
    ∧ ((∃ k, first_blank_after (the_board s) dd rc k
             ∧ captures s' = captures s
             ∧ no_go_move s'
               = if decide (k = steps_to_edge dd rc)
                 then Some (inverse_of dd rc) else None)
       ∨ (no_blank_ahead (the_board s) dd rc
          ∧ captures s' = captures s + 1
          ∧ no_go_move s' = None)).
Proof.
  intros H.
  apply make_move_true in H
    as (curr & dd & s1 & s2 & t & _ & _ & Hon & _ & _ & H1 & -> & H2 & Ht & ->).
  exists dd. split; [done|]. split; [done|].
  apply any_legal_move_spec in H1 as ((Hp1 & _ & _ & Hb1 & _) & _).
  destruct (with_turn_frame p s) as (Hp0 & _ & Hb0 & _).
  pose proof (push_frame _ _ _ _ _ _ H2) as [(Hp2 & _) _].
  assert (Hcap : captures s2 = captures s).
  { unfold captures. by rewrite Hp2, Hp1, Hp0. }
  rewrite commit_no_go.
  assert (captures (commit p curr t s2) = captures (booked curr s2)) as ->.
  { unfold captures. by rewrite commit_players. }
  rewrite booked_captures, Hcap.
  apply push_true in H2
    as (k & t' & Hk & Hmarb & _ & Ht' & HX & Hcase); [|done].
  assert (t' = t) as -> by congruence.
  rewrite commit_board. split; [done|].
  rewrite Hb1, Hb0 in Hmarb, Hcase.
  destruct Hcase as [(Hblank & -> & Hn & _)|(-> & v & Hv & HvX & _ & -> & Hn & _)].
  - left. exists k. split; [done|]. split; [lia|done].
  - right. split; [|split; [lia|done]].
    intros j Hj. destruct (decide (j = steps_to_edge dd rc)) as [->|].
    + by exists v.
    + apply Hmarb. lia.
Qed.

(** C1, amended.  A call of [make_move] that returns [True] names one of
    the four directions.  The scan from the marble in that direction either
    meets no empty cell up to and including the far-edge cell, and then one
    marble is captured and the no-go move becomes [None]; or it meets a
    first empty cell, and then nothing is captured.  When that first empty
    cell is the far-edge cell itself, the no-go move becomes that far-edge
    cell with the opposite direction.  Nothing is said here of the no-go
    move when the first empty cell lies before the far edge. *)
Theorem no_go_after_push p rc d s s' :
  make_move p rc d s = Some (true, s') →
  ∃ dd, d = dir_name dd
    ∧ (no_blank_ahead (the_board s) dd rc
       ∨ ∃ k, first_blank_after (the_board s) dd rc k)
    ∧ (no_blank_ahead (the_board s) dd rc →
       captures s' = captures s + 1 ∧ no_go_move s' = None)
    ∧ (∀ k, first_blank_after (the_board s) dd rc k → captures s' = captures s)
    ∧ (first_blank_after (the_board s) dd rc (steps_to_edge dd rc) →
       no_go_move s' = Some (inverse_of dd rc)).
Proof.
  intros H. apply accepted_call_outcome in H as (dd & Hd & _ & _ & Hcase).
  exists dd. split; [done|].
  assert (Hexcl : ∀ k, no_blank_ahead (the_board s) dd rc →
                       first_blank_after (the_board s) dd rc k → False).
  { intros k Hnone (Hk & Hb & _). destruct (Hnone k Hk) as (v & Hv & HX).
    unfold blank_at in Hb. congruence. }
  destruct Hcase as [(k & Hfirst & Hcap & Hn)|(Hnone & Hcap & Hn)].
  - split; [right; by exists k|]. split; [intros Hnone; by destruct (Hexcl k)|].
    split; [done|]. intros (_ & _ & Hm).
    rewrite Hn. case_decide as Hk; [done|exfalso].
    destruct Hfirst as (Hr & Hb & _). destruct (Hm k) as (v & Hv & HX); [lia|].
    unfold blank_at in Hb. congruence.
  - split; [by left|]. split; [done|].
    split; [intros k Hk|intros Hk]; by destruct (Hexcl _ Hnone Hk).
Qed.

Lemma no_go_after_push_witness :
  ∃ dd, "F"%string = dir_name dd
    ∧ (no_blank_ahead (the_board after_b_left) dd (2, 6)
       ∨ ∃ k, first_blank_after (the_board after_b_left) dd (2, 6) k)
    ∧ (no_blank_ahead (the_board after_b_left) dd (2, 6) →
       captures after_a_forward = captures after_b_left + 1
       ∧ no_go_move after_a_forward = None)
    ∧ (∀ k, first_blank_after (the_board after_b_left) dd (2, 6) k →
            captures after_a_forward = captures after_b_left)
    ∧ (first_blank_after (the_board after_b_left) dd (2, 6) (steps_to_edge dd (2, 6)) →
       no_go_move after_a_forward = Some (inverse_of dd (2, 6))).
Proof.
  apply (no_go_after_push "PlayerA" (2, 6) "F" after_b_left after_a_forward).
  vm_compute. reflexivity.
Defined.

(** A late-game position: ['PlayerA'] has captured six red marbles and can
    push a seventh off the board with [(0, 1), 'L']. *)
Definition near_win_game : KubaGame :=
  {| players := (mkPlayer "PlayerA" W 6 0, mkPlayer "PlayerB" B 0 1);
     winner := None;
     turn := Some "PlayerA"%string;
     the_board :=
       [ [ R; W; X; X; X; B; B ];
         [ W; W; X; X; X; B; B ];
         [ X; X; X; R; R; X; W ];
         [ X; X; R; R; R; X; X ];
         [ X; X; X; R; X; X; X ];
         [ B; B; X; X; X; W; W ];
         [ B; B; X; X; X; W; W ] ];
     red := 7;
     white := 7;
     black := 8;
     no_go_move := None;
     captured_marble := None;
     temp_board := None |}.

Definition after_seventh_red : KubaGame :=
  Eval vm_compute in
    default near_win_game (snd <$> make_move "PlayerA" (0, 1) "L" near_win_game).



(** The seventh red marble: the call returns [True] and the game is won. *)
Example seventh_red_wins :
  make_move "PlayerA" (0, 1) "L" near_win_game = Some (true, after_seventh_red)
  ∧ get_captured "PlayerA" after_seventh_red = Some 7
  ∧ get_winner after_seventh_red = Some "PlayerA"%string.
Proof. repeat split; vm_compute; reflexivity. Qed.

Lemma main_game_board_ok : board_ok (the_board main_game).
Proof. split; [done|]. by repeat constructor. Qed.

(** C8.  On a 7x7 board, when the line from the requested cell to the far
    edge in the push direction is full of marbles and the marble on the
    far edge has the colour of the caller, [make_move] returns [False] and
    the board is the one it was. *)
Theorem own_marble_never_pushed_off p rc dd curr s :
  board_ok (the_board s) →
  resolve p s = Some curr →
  no_blank_ahead (the_board s) dd rc →
  cellAt (the_board s) (far_edge dd rc).1 (far_edge dd rc).2
  = Some (get_color (player_at curr s)) →
  ∃ s', make_move p rc (dir_name dd) s = Some (false, s')
        ∧ the_board s' = the_board s.
Proof.
  intros Hok Hcurr Hfull Hown.
  destruct (make_move_is_Some p rc (dir_name dd) s Hok) as [[ok s'] H].
  destruct ok.
  - exfalso.
    apply make_move_true in H
      as (curr' & dd' & s1 & s2 & t & _ & _ & Hon & Hcurr' & _ & H1 & Hd & H2 & _).
    apply dir_name_inj in Hd as <-.
    assert (curr' = curr) as -> by congruence.
    rewrite player_at_with_turn in *.
    apply any_legal_move_spec in H1 as ((_ & _ & _ & Hb1 & _) & _).
    destruct (with_turn_frame p s) as (_ & _ & Hb0 & _).
    apply push_true in H2 as (k & t' & Hk & _ & _ & _ & _ & Hcase); [|done].
    rewrite Hb1, Hb0 in Hcase.
    destruct Hcase as [(Hblank & _)|(_ & v & Hv & _ & Hne & _)].
    + destruct (Hfull k Hk) as (v & Hv & HX). unfold blank_at in Hblank. congruence.
    + congruence.
  - exists s'. split; [done|]. by apply make_move_false_frame in H as [? _].
Qed.

Lemma own_marble_never_pushed_off_witness :
  ∃ s', make_move "PlayerA" (0, 1) (dir_name Leftward) main_game = Some (false, s')
        ∧ the_board s' = the_board main_game.
Proof.
  apply (own_marble_never_pushed_off "PlayerA" (0, 1) Leftward 0 main_game).
  - exact main_game_board_ok.
  - reflexivity.
  - intros j Hj. assert (j = 0 ∨ j = 1) as [-> | ->] by (simpl in Hj; lia).
    + exists W. by vm_compute.
    + exists W. by vm_compute.
  - reflexivity.
Defined.

Lemma has_legal_push_transfer pl s1 s2 :
  the_board s1 = the_board s2 → no_go_move s1 = no_go_move s2 →
  has_legal_push pl s1 → has_legal_push pl s2.
Proof.
  intros Hb Hn (rc & d & s' & Hon & Hcell & H).
  eapply push_transfer in H as [s2' ?]; [|done..].
  exists rc, d, s2'. by rewrite <- Hb.
Qed.

Lemma has_legal_push_with_turn pl p s :
  has_legal_push pl (with_turn p s) ↔ has_legal_push pl s.
Proof.
  destruct (with_turn_frame p s) as (_ & _ & Hb & _ & _ & _ & Hn).
  split; apply has_legal_push_transfer; done.
Qed.













(** ** Reachable games *)

(** The games a program can hold: a freshly constructed one, and what any
    call of [make_move] leaves. *)
Inductive reachable : KubaGame → Prop :=
  | reachable_init pc_tup_1 pc_tup_2 : reachable (KubaGame_init pc_tup_1 pc_tup_2)
  | reachable_call s p rc d ok s' :
      reachable s → make_move p rc d s = Some (ok, s') → reachable s'.

Lemma reachable_board_ok s : reachable s → board_ok (the_board s).
Proof.
  induction 1 as [|s p rc d ok s' _ IH H].
  - split; [done|]. by repeat constructor.
  - by eapply make_move_board_ok.
Qed.

(** C10.  In every reachable game, a call of [make_move] with integer
    coordinates, any name and any direction string returns a boolean: the
    model, in which an index outside a list is a fault, yields a result, so
    no access leaves the board.  Coordinates off the board and a string that
    names no direction give [False]. *)
Theorem make_move_never_raises s p r c d :
  reachable s →
  ∃ ok s', make_move p (r, c) d s = Some (ok, s')
    ∧ (¬ on_board (r, c) → ok = false)
    ∧ ((∀ dd, d ≠ dir_name dd) → ok = false).
Proof.
  intros Hreach.
  destruct (make_move_is_Some p (r, c) d s (reachable_board_ok s Hreach)) as [[ok s'] H].
  exists ok, s'. split; [done|].
  destruct ok; [|done].
  apply make_move_true in H as (_ & dd & _ & _ & _ & _ & _ & Hon & _ & _ & _ & Hd & _).
  split; [done|]. intros Hno. by destruct (Hno dd).
Qed.

Lemma make_move_never_raises_witness :
  ∃ ok s', make_move "PlayerA" (7, -1) "up" main_game = Some (ok, s')
    ∧ (¬ on_board (7, -1) → ok = false)
    ∧ ((∀ dd, "up"%string ≠ dir_name dd) → ok = false).
Proof.
  apply (make_move_never_raises main_game "PlayerA" 7 (-1) "up").
  apply reachable_init.
Defined.

(** ** Conservation of marbles *)

(** A successful call removes from the board exactly the marbles it books
    as captured, and it captures at most one. *)
Lemma make_move_conserves p rc d s s' :
  make_move p rc d s = Some (true, s') →
  marbles_on (the_board s') + captures s' = marbles_on (the_board s) + captures s
  ∧ red s' + white s' + black s' + captures s'
    = red s + white s + black s + captures s
  ∧ captures s ≤ captures s' ≤ captures s + 1.
Proof.
  intros H.
  apply make_move_true in H
    as (curr & dd & s1 & s2 & t & _ & _ & Hon & _ & _ & H1 & _ & H2 & Ht & ->).
  apply any_legal_move_spec in H1 as ((Hp1 & _ & _ & Hb1 & Hr1 & Hw1 & Hbl1) & _).
  destruct (with_turn_frame p s) as (Hp0 & _ & Hb0 & Hr0 & Hw0 & Hbl0 & _).
  pose proof (push_frame _ _ _ _ _ _ H2) as [(Hp2 & _ & _ & _ & Hr2 & Hw2 & Hbl2) _].
  assert (Hcap : captures s2 = captures s).
  { unfold captures. by rewrite Hp2, Hp1, Hp0. }
  rewrite commit_board.
  destruct (commit_counts p curr t s2) as (-> & -> & ->).
  assert (captures (commit p curr t s2) = captures (booked curr s2)) as ->.
  { unfold captures. by rewrite commit_players. }
  pose proof (booked_captures curr s2) as Hbc.
  pose proof (booked_counts curr s2) as Hbt.
  apply push_true in H2 as (k & t' & _ & _ & _ & Ht' & _ & Hcase); [|done].
  assert (t' = t) as -> by congruence.
  rewrite Hb1, Hb0 in Hcase.
  destruct Hcase as [(_ & Hc & _ & Hm)|(_ & v & _ & _ & _ & Hc & _ & Hm)];
    rewrite Hc in Hbc, Hbt; lia.
Qed.

(** The games reached from [s0] by calls that returned [True]. *)
Inductive played (s0 : KubaGame) : KubaGame → Prop :=
  | played_none : played s0 s0
  | played_move s p rc d s' :
      played s0 s → make_move p rc d s = Some (true, s') → played s0 s'.

(** C5 (the code departs from the claim).  After any sequence of
    successful calls from a freshly constructed game, the marbles on the
    board number 30 minus the captures of both players, not 29 minus them:
    the fresh board holds 30 marbles.  The three tallies add up to 29 minus
    the captures, and no successful call adds a marble to the board. *)
Theorem marbles_on_board_after_play pc_tup_1 pc_tup_2 s :
  played (KubaGame_init pc_tup_1 pc_tup_2) s →
  marbles_on (the_board s) = 30 - captures s
  ∧ red s + white s + black s = 29 - captures s
  ∧ ∀ p rc d s', make_move p rc d s = Some (true, s') →
      marbles_on (the_board s') ≤ marbles_on (the_board s).
Proof.
  intros Hplayed.
  assert (Hinv : marbles_on (the_board s) = 30 - captures s
                 ∧ red s + white s + black s = 29 - captures s).
  { induction Hplayed as [|s p rc d s' _ [IH1 IH2] H].
    - by vm_compute.
    - apply make_move_conserves in H as (? & ? & _). lia. }
  destruct Hinv as [Hm Ht]. split; [done|]. split; [done|].
  intros p rc d s' H. apply make_move_conserves in H as (? & _ & ?). lia.
Qed.

Lemma marbles_on_board_after_play_witness :
  marbles_on (the_board after_first_move) = 30 - captures after_first_move
  ∧ red after_first_move + white after_first_move + black after_first_move
    = 29 - captures after_first_move
  ∧ ∀ p rc d s', make_move p rc d after_first_move = Some (true, s') →
      marbles_on (the_board s') ≤ marbles_on (the_board after_first_move).
Proof.
  apply (marbles_on_board_after_play ("PlayerA"%string, W) ("PlayerB"%string, B)).
  apply (played_move _ main_game "PlayerA" (6, 5) "F").
  - apply played_none.
  - vm_compute. reflexivity.
Defined.

(** The fresh game holds 30 marbles and no capture is booked. *)
Example fresh_game_holds_thirty :
  marbles_on (the_board main_game) = 30 ∧ captures main_game = 0.
Proof. by vm_compute. Qed.

(** ** The calls that are accepted *)

Lemma guards_give_legal_push p rc curr dd s s2 :
  passes_guards p rc curr s →
  push dd rc (player_at curr s) s = Some (true, s2) →
  has_legal_push (player_at curr s) s.
Proof.
  intros (_ & _ & Hon & _ & Hcell) H. by exists rc, dd, s2.
Qed.

(** On a 7x7 board [make_move] returns [True] exactly when the call passes
    the guards, names a direction, and the push in that direction goes
    through on the game as it stands. *)
Lemma make_move_accepts p rc d s :
  board_ok (the_board s) →
  (∃ s', make_move p rc d s = Some (true, s'))
  ↔ ∃ curr dd s2, passes_guards p rc curr s ∧ d = dir_name dd
                  ∧ push dd rc (player_at curr s) s = Some (true, s2).
Proof.
  intros Hok.
  destruct (with_turn_frame p s) as (_ & _ & Hb0 & _ & _ & _ & Hn0).
  split.
  - intros [s' H].
    apply make_move_true in H
      as (curr & dd & s1 & s2 & t & Ht & Hw & Hon & Hcurr & Hcell & H1 & Hd & H2 & _).
    rewrite player_at_with_turn in *.
    apply any_legal_move_spec in H1 as ((_ & _ & _ & Hb1 & _) & Hn1 & _).
    eapply (push_transfer _ _ _ s1 s) in H2 as [s2' H2]; [|congruence..].
    by exists curr, dd, s2'.
  - intros (curr & dd & s2 & Hadm & -> & H2).
    assert (Hcurr : resolve p s = Some curr) by apply Hadm.
    pose proof (guards_give_legal_push _ _ _ _ _ _ Hadm H2) as Hlegal.
    destruct (make_move_is_Some p rc (dir_name dd) s Hok) as [[ok s'] H].
    destruct ok; [by exists s'|]. exfalso.
    apply make_move_false in H
      as [[_ Hno]|[(curr' & s1 & Hadm' & H1 & _)|(curr' & s1 & Hadm' & H1 & Hs')]].
    + by destruct (Hno curr).
    + assert (curr' = curr) as -> by (destruct Hadm' as (_&_&_&?&_); congruence).
      apply any_legal_move_spec in H1 as (_ & _ & Hiff).
      apply (has_legal_push_with_turn _ p), Hiff in Hlegal. discriminate Hlegal.
    + assert (curr' = curr) as -> by (destruct Hadm' as (_&_&_&?&_); congruence).
      apply any_legal_move_spec in H1 as ((_ & _ & _ & Hb1 & _) & Hn1 & _).
      destruct Hs' as [[_ Hnodir]|(dd' & Hd & Hpush)]; [by destruct (Hnodir dd)|].
      apply dir_name_inj in Hd as <-.
      eapply (push_transfer _ _ _ s s1) in H2 as [s2' H2]; [|congruence..].
      rewrite H2 in Hpush. discriminate Hpush.
Qed.

Lemma passes_guards_set_no_go n p rc curr s :
  passes_guards p rc curr (set_no_go_move n s) ↔ passes_guards p rc curr s.
Proof.
  unfold passes_guards, with_turn, resolve, player_at. simpl.
  by destruct (decide (turn s = None)).
Qed.

(** A request that the no-go move does not name is accepted or rejected
    as it would be with no no-go move at all. *)
Lemma make_move_without_no_go q rc d s :
  board_ok (the_board s) →
  undoes (no_go_move s) rc d = false →
  fst <$> make_move q rc d s = fst <$> make_move q rc d (set_no_go_move None s).
Proof.
  intros Hok Hu.
  pose proof (make_move_accepts q rc d s Hok) as Hacc.
  pose proof (make_move_accepts q rc d (set_no_go_move None s) Hok) as Hacc0.
  assert (Hiff : (∃ s', make_move q rc d s = Some (true, s'))
                 ↔ ∃ s', make_move q rc d (set_no_go_move None s) = Some (true, s')).
  { rewrite Hacc, Hacc0. split.
    - intros (curr & dd & s2 & Hadm & -> & H2).
      eapply (push_agree _ _ _ s (set_no_go_move None s)) in H2
        as (s2' & H2 & _); [|done|by rewrite Hu].
      exists curr, dd, s2'. by rewrite passes_guards_set_no_go.
    - intros (curr & dd & s2 & Hadm & -> & H2).
      eapply (push_agree _ _ _ (set_no_go_move None s) s) in H2
        as (s2' & H2 & _); [|done|by rewrite Hu].
      exists curr, dd, s2'. by rewrite passes_guards_set_no_go in Hadm. }
  destruct (make_move_is_Some q rc d s Hok) as [[ok1 s1] H1].
  destruct (make_move_is_Some q rc d (set_no_go_move None s) Hok) as [[ok2 s2] H2].
  rewrite H1, H2. simpl. f_equal.
  destruct ok1, ok2; try done.
  - destruct Hiff as [Hiff _]. destruct Hiff as [s' H']; [by eexists|]. congruence.
  - destruct Hiff as [_ Hiff]. destruct Hiff as [s' H']; [by eexists|]. congruence.
Qed.

(** A request that the no-go move names is rejected. *)
Lemma make_move_undoes q rc d s :
  board_ok (the_board s) →
  undoes (no_go_move s) rc d = true →
  fst <$> make_move q rc d s = Some false.
Proof.
  intros Hok Hu.
  destruct (make_move_is_Some q rc d s Hok) as [[ok s'] H].
  rewrite H. simpl. f_equal. destruct ok; [|done]. exfalso.
  destruct (make_move_accepts q rc d s Hok) as [Hacc _].
  destruct Hacc as (curr & dd & s2 & _ & -> & H2); [by eexists|].
  by apply (push_undoes _ _ _ _ _ _ Hu) in H2.
Qed.

(** A request for an empty cell is rejected, whatever the direction, when
    the caller's colour is not the empty one. *)
Lemma make_move_empty_cell q rc d s :
  board_ok (the_board s) →
  cellAt (the_board s) rc.1 rc.2 = Some X →
  (∀ c, resolve q s = Some c → get_color (player_at c s) ≠ X) →
  fst <$> make_move q rc d s = Some false.
Proof.
  intros Hok HX Hcol.
  destruct (make_move_is_Some q rc d s Hok) as [[ok s'] H].
  rewrite H. simpl. f_equal. destruct ok; [|done]. exfalso.
  destruct (make_move_accepts q rc d s Hok) as [Hacc _].
  destruct Hacc as (curr & dd & s2 & (_ & _ & _ & Hcurr & Hcell) & _); [by eexists|].
  apply (Hcol curr Hcurr). congruence.
Qed.

(** The game after ['PlayerB'] opened with [(0, 6), 'B'], and then after
    ['PlayerA'] answered with [(3, 6), 'F']. *)
Definition after_b_backward : KubaGame :=
  Eval vm_compute in
    default main_game (snd <$> make_move "PlayerB" (0, 6) "B" main_game).

Definition after_a_undo : KubaGame :=
  Eval vm_compute in
    default main_game (snd <$> make_move "PlayerA" (3, 6) "F" after_b_backward).

(** C6 (the code departs from the claim).  On the fresh board ['PlayerB']
    pushes [(0, 6), 'B']: the line of column 6 moves one cell down into
    the empty cell [(3, 6)], nothing is captured, [(0, 6)] is left empty,
    and no no-go move is recorded.  The immediately following push of
    ['PlayerA'], [(3, 6), 'F'], is the exact opposite one: it is accepted,
    and the board is again the board of the fresh game. *)
Theorem exact_undo_is_accepted :
  make_move "PlayerB" (0, 6) "B" main_game = Some (true, after_b_backward)
  ∧ captures after_b_backward = captures main_game
  ∧ get_marble (0, 6) after_b_backward = Some X
  ∧ the_board after_b_backward ≠ the_board main_game
  ∧ no_go_move after_b_backward = None
  ∧ make_move "PlayerA" (3, 6) "F" after_b_backward = Some (true, after_a_undo)
  ∧ the_board after_a_undo = the_board main_game.
Proof.
  repeat split; try (vm_compute; reflexivity).
  intros E. vm_compute in E. discriminate E.
Qed.

Lemma after_b_left_board_ok : board_ok (the_board after_b_left).
Proof. split; [done|]. by repeat constructor. Qed.

(** * Further properties of the code *)

(** ** Turn order and the end of the game *)

(** [get_player], lines 639-645; Python returns [None] for a name that
    matches neither player. *)
Definition get_player (name : string) (self : KubaGame) : option KubaPlayer :=
  if decide (get_name (players self).1 = name) then Some (players self).1
  else if decide (get_name (players self).2 = name) then Some (players self).2
  else None.

Lemma resolve_index p s curr : resolve p s = Some curr → curr = 0 ∨ curr = 1.
Proof. unfold resolve. repeat case_decide; naive_solver. Qed.

Lemma booked_names curr s :
  get_name (players (booked curr s)).1 = get_name (players s).1
  ∧ get_name (players (booked curr s)).2 = get_name (players s).2.
Proof.
  unfold booked. destruct (captured_marble s); [|done].
  split; apply update_marbles_frame.
Qed.

Lemma commit_turn p curr t s :
  turn (commit p curr t s)
  = Some (get_name (if decide (curr = 0) then (players s).2 else (players s).1)).
Proof.
  unfold commit. fold (booked curr s).
  destruct (booked_names curr s) as [H1 H2].
  case_decide; repeat case_match; simpl; congruence.
Qed.

(** What an accepted call leaves in the turn and in the names. *)
Lemma accepted_call_turn p rc d s s' :
  make_move p rc d s = Some (true, s') →
  ∃ curr, resolve p s = Some curr
    ∧ turn s' = Some (get_name (player_at (1 - curr) s))
    ∧ get_name (players s').1 = get_name (players s).1
    ∧ get_name (players s').2 = get_name (players s).2.
Proof.
  intros H.
  apply make_move_true in H
    as (curr & dd & s1 & s2 & t & _ & _ & _ & Hcurr & _ & H1 & _ & H2 & _ & ->).
  exists curr. split; [done|].
  apply any_legal_move_spec in H1 as ((Hp1 & _) & _).
  apply push_frame in H2 as [(Hp2 & _) _].
  destruct (with_turn_frame p s) as (Hp0 & _).
  assert (Hp : players s2 = players s) by congruence.
  rewrite commit_turn, commit_players.
  destruct (booked_names curr s2) as [-> ->]. rewrite Hp.
  split; [|done].
  destruct (resolve_index _ _ _ Hcurr) as [-> | ->]; reflexivity.
Qed.

Lemma call_out_of_turn p q rc d s :
  turn s = Some q → p ≠ q → make_move p rc d s = Some (false, s).
Proof.
  intros Hq Hne. unfold make_move. cbv zeta.
  rewrite (decide_False (P := turn s = None)) by (by rewrite Hq).
  rewrite decide_True; [done|]. rewrite Hq. congruence.
Qed.

(** X1.  A call by a player other than the one whose turn is recorded
    returns [False] and leaves the whole game object, scratch attributes
    included, as it was. *)
Theorem out_of_turn_call_changes_nothing p q rc d s :
  turn s = Some q → p ≠ q → make_move p rc d s = Some (false, s).
Proof. apply call_out_of_turn. Qed.

Lemma out_of_turn_call_changes_nothing_witness :
  make_move "PlayerA" (5, 5) "F" after_first_move = Some (false, after_first_move).
Proof.
  apply (out_of_turn_call_changes_nothing "PlayerA" "PlayerB").
  - reflexivity.
  - discriminate.
Defined.

(** X2.  Once a winner and a turn are recorded, every call returns
    [False] and leaves the whole game object as it was, whoever calls. *)
Theorem finished_game_rejects_every_call p rc d s :
  winner s ≠ None → turn s ≠ None → make_move p rc d s = Some (false, s).
Proof.
  intros Hw Ht. unfold make_move. cbv zeta.
  rewrite (decide_False (P := turn s = None)) by done.
  case_decide; [done|]. by rewrite decide_True.
Qed.

Lemma finished_game_rejects_every_call_witness :
  make_move "PlayerB" (0, 6) "L" after_seventh_red = Some (false, after_seventh_red).
Proof.
  apply (finished_game_rejects_every_call "PlayerB" (0, 6) "L" after_seventh_red).
  - discriminate.
  - discriminate.
Defined.

(** X3.  When the two players have different names, an accepted call
    passes the turn to the other player: the recorded turn is then the
    name of a player other than the caller, and any further call by
    the same caller is rejected and changes nothing. *)
Theorem turn_alternates p rc d s s' :
  make_move p rc d s = Some (true, s') →
  get_name (players s).1 ≠ get_name (players s).2 →
  (∃ q, get_current_turn s' = Some q ∧ q ≠ p ∧ resolve q s' ≠ None)
  ∧ ∀ rc' d', make_move p rc' d' s' = Some (false, s').
Proof.
  intros H Hnames.
  apply accepted_call_turn in H as (curr & Hcurr & Ht & Hn1 & Hn2).
  set (q := get_name (player_at (1 - curr) s)) in *.
  assert (Hq : q ≠ p ∧ resolve q s' ≠ None).
  { unfold q, resolve in *. rewrite Hn1, Hn2.
    repeat case_decide; simplify_eq; unfold player_at; simpl; split; congruence. }
  destruct Hq as [Hqp Hqr]. split; [by exists q|].
  intros rc' d'. by apply (call_out_of_turn p q).
Qed.

Lemma turn_alternates_witness :
  (∃ q, get_current_turn after_first_move = Some q ∧ q ≠ "PlayerA"%string
        ∧ resolve q after_first_move ≠ None)
  ∧ ∀ rc' d', make_move "PlayerA" rc' d' after_first_move = Some (false, after_first_move).
Proof.
  apply (turn_alternates "PlayerA" (6, 5) "F" main_game after_first_move).
  - vm_compute. reflexivity.
  - discriminate.
Defined.

(** X4.  The winner is recorded in two ways only.  When a call turns a
    game without winner into one with a winner, the caller is one of the
    two players and either the call returned [True], the winner is the
    caller and the caller's captures have reached 7 red or 8 opponent
    marbles; or the call returned [False], the caller's colour had no legal
    push and the winner is the other player. *)
Theorem only_two_ways_to_win p rc d s ok s' w :
  make_move p rc d s = Some (ok, s') →
  winner s = None → winner s' = Some w →
  ∃ curr, resolve p s = Some curr
    ∧ ((ok = true ∧ w = p
        ∧ (7 ≤ get_red (player_at curr s')
           ∨ 8 ≤ get_opponent_marbles (player_at curr s')))
       ∨ (ok = false ∧ w = get_name (player_at (1 - curr) s)
          ∧ ¬ has_legal_push (player_at curr s) s)).
Proof.
  intros H Hw Hw'. destruct (with_turn_frame p s) as (_ & Hw0 & _).
  destruct ok.
  - apply make_move_true in H
      as (curr & dd & s1 & s2 & t & _ & _ & _ & Hcurr & _ & H1 & _ & H2 & _ & ->).
    exists curr. split; [done|]. left. split; [done|].
    rewrite commit_winner in Hw'.
    assert (Hpl : player_at curr (commit p curr t s2) = player_at curr (booked curr s2)).
    { unfold player_at. by rewrite commit_players. }
    rewrite Hpl.
    assert (Hw2 : winner s2 = None).
    { apply any_legal_move_spec in H1 as ((_ & Hw1 & _) & _).
      apply push_frame in H2 as [(_ & Hw2 & _) _]. congruence. }
    destruct (bool_decide _ || bool_decide _) eqn:Hb; [|congruence].
    split; [congruence|].
    apply orb_true_iff in Hb as [Hb|Hb]; apply bool_decide_eq_true in Hb; [by right|by left].
  - apply make_move_false in H
      as [[-> _]|[(curr & s1 & Hadm & H1 & ->)|(curr & s1 & Hadm & H1 & Hs')]].
    + congruence.
    + exists curr. split; [apply Hadm|]. right. split; [done|].
      simpl in Hw'. split; [congruence|].
      apply any_legal_move_spec in H1 as (_ & _ & Hiff).
      intros Hl. apply (has_legal_push_with_turn _ p), Hiff in Hl. discriminate Hl.
    + apply any_legal_move_spec in H1 as ((_ & Hw1 & _) & _).
      destruct Hs' as [[-> _]|(dd & _ & Hpush)]; [congruence|].
      apply push_frame in Hpush as [(_ & Hw2 & _) _]. congruence.
Qed.

Lemma only_two_ways_to_win_witness :
  ∃ curr, resolve "PlayerA" near_win_game = Some curr
    ∧ ((true = true ∧ "PlayerA"%string = "PlayerA"%string
        ∧ (7 ≤ get_red (player_at curr after_seventh_red)
           ∨ 8 ≤ get_opponent_marbles (player_at curr after_seventh_red)))
       ∨ (true = false
          ∧ "PlayerA"%string = get_name (player_at (1 - curr) near_win_game)
          ∧ ¬ has_legal_push (player_at curr near_win_game) near_win_game)).
Proof.
  apply (only_two_ways_to_win "PlayerA" (0, 1) "L" near_win_game true after_seventh_red).
  - vm_compute. reflexivity.
  - reflexivity.
  - reflexivity.
Defined.

(** ** The search for a legal move, and the rules of a push *)

Definition after_search_main : KubaGame :=
  Eval vm_compute in
    default main_game (snd <$> any_legal_move (player_at 0 main_game) main_game).

(** X5.  The search of lines 195-209 answers [True] exactly when some
    marble of the player's colour on the board has a push that goes
    through under the no-go move in force, although [break] leaves only
    the inner loop and the trial pushes overwrite the no-go move as they
    go; and it hands back the board, the players, the winner, the turn, the
    tallies and the no-go move as they were. *)
Theorem legal_move_search_is_exact pl s can_move s' :
  any_legal_move pl s = Some (can_move, s') →
  (can_move = true ↔ has_legal_push pl s)
  ∧ the_board s' = the_board s ∧ no_go_move s' = no_go_move s
  ∧ players s' = players s ∧ winner s' = winner s ∧ turn s' = turn s
  ∧ get_marble_count s' = get_marble_count s.
Proof.
  intros H. apply any_legal_move_spec in H as ((?&?&?&?&?&?&?) & ? & ?).
  unfold get_marble_count. repeat split; try done; try tauto. congruence.
Qed.

Lemma legal_move_search_is_exact_witness :
  (true = true ↔ has_legal_push (player_at 0 main_game) main_game)
  ∧ the_board after_search_main = the_board main_game
  ∧ no_go_move after_search_main = no_go_move main_game
  ∧ players after_search_main = players main_game
  ∧ winner after_search_main = winner main_game
  ∧ turn after_search_main = turn main_game
  ∧ get_marble_count after_search_main = get_marble_count main_game.
Proof.
  apply (legal_move_search_is_exact (player_at 0 main_game) main_game true
           after_search_main).
  vm_compute. reflexivity.
Defined.

(** Why a push is rejected: the cell behind the marble holds a marble, or
    the marble on the far edge has the player's colour with no empty cell
    before it (or the far-edge cell is empty and the player's colour is the
    empty one), or the no-go move names this push. *)
Lemma slide_false pos i low d inv rc pl s s' :
  0 ≤ i ≤ 6 →
  slide pos i low d inv rc pl s = Some (false, s') →
  let look n := cellAt (the_board s) (pos n).1 (pos n).2 in
  let far := if low then 0 else 6 in
  (i ≠ (if low then 6 else 0) ∧ is_marble (look (if low then i + 1 else i - 1)))
  ∨ (look far = Some (get_color pl)
     ∧ (get_color pl = X
        ∨ ∀ j, (if low then 0 ≤ j ≤ i else i ≤ j ≤ 6) → is_marble (look j)))
  ∨ undoes (no_go_move s) rc d = true.
Proof.
  intros Hi H look far. unfold slide in H. cbv zeta in H.
  bind_inv H blocked Hblocked. destruct blocked.
  { left. case_decide as Hne; [|discriminate Hblocked]. split; [done|].
    destruct (cellAt _ _ _) as [v|] eqn:Hv; simpl in Hblocked; [|discriminate Hblocked].
    injection Hblocked as Hb. apply bool_decide_eq_true in Hb. by exists v. }
  bind_inv H stop Hstop. bind_inv H edge Hedge.
  destruct edge as [[inverse_bool captured]|].
  2:{ right. left. fold far in Hedge, Hstop.
      case_decide as Hfar; [|discriminate Hedge].
      destruct (cellAt (the_board s) (pos stop).1 (pos stop).2) as [last|] eqn:Hlast;
        simpl in Hedge; [|discriminate Hedge].
      case_decide as Hcol; [|by repeat case_decide]. subst last stop.
      split; [done|].
      destruct (decide (get_color pl = X)) as [|HX]; [by left|right].
      destruct low.
      - apply find_blank_range_down in Hstop as [(_ & HfX & _)|[_ Hall]].
        + unfold far in *. congruence.
        + intros j Hj. apply Hall. lia.
      - apply find_blank_range in Hstop as [(_ & HfX & _)|[_ Hall]].
        + unfold far in *. congruence.
        + intros j Hj. apply Hall. lia. }
  simpl in H. destruct (undoes _ _ _) eqn:Hundo; [by right; right|].
  bind_inv H t1 Ht1. bind_inv H t2 Ht2. discriminate H.
Qed.

(** A push that goes through had no marble behind it. *)
Lemma slide_true_behind pos i low d inv rc pl s s' :
  slide pos i low d inv rc pl s = Some (true, s') →
  i = (if low then 6 else 0)
  ∨ cellAt (the_board s) (pos (if low then i + 1 else i - 1)).1
                         (pos (if low then i + 1 else i - 1)).2 = Some X.
Proof.
  intros H. unfold slide in H. cbv zeta in H.
  bind_inv H blocked Hblocked. destruct blocked; [discriminate H|].
  case_decide as Hne; [|by left]. right.
  destruct (cellAt _ _ _) as [v|]; simpl in Hblocked; [|discriminate Hblocked].
  injection Hblocked as Hb. apply bool_decide_eq_false in Hb.
  f_equal. by apply dec_stable.
Qed.

Lemma line_on_board_inv d rc n : on_board (line d rc n) → 0 ≤ n ≤ 6.
Proof. intros [??]. by destruct d. Qed.

(** The three rules of a push.  On a 7x7 board, for a marble on the board
    and a player whose colour is a marble colour, the push goes through
    exactly when the cell behind the marble holds no marble, the push would
    not force a marble of the player's colour off the far edge, and the
    no-go move does not name the push. *)
Lemma push_rules dd rc pl s :
  board_ok (the_board s) → on_board rc → get_color pl ≠ X →
  (∃ s', push dd rc pl s = Some (true, s'))
  ↔ ¬ marble_at (the_board s) (ahead dd rc (-1))
    ∧ ¬ (no_blank_ahead (the_board s) dd rc
         ∧ cellAt (the_board s) (far_edge dd rc).1 (far_edge dd rc).2
           = Some (get_color pl))
    ∧ undoes (no_go_move s) rc (dir_name dd) = false.
Proof.
  intros Hok Hon Hcol.
  assert (Hbehind : ahead dd rc (-1)
                    = line dd rc (if toward_low dd then along dd rc + 1
                                  else along dd rc - 1)).
  { rewrite line_ahead; f_equal; destruct (toward_low dd); lia. }
  assert (Hfar : far_edge dd rc = line dd rc (if toward_low dd then 0 else 6)).
  { unfold far_edge; rewrite line_ahead, steps_along; f_equal;
      destruct (toward_low dd); lia. }
  pose proof (along_on_board dd rc Hon) as Hi.
  split.
  - intros [s' H]. split; [|split].
    + intros (v & Hv & HvX). rewrite Hbehind in Hv.
      rewrite push_slide in H. apply slide_true_behind in H as [Hnear|HX].
      * apply cellAt_on_board in Hv; [|done].
        rewrite <- surjective_pairing in Hv. apply line_on_board_inv in Hv.
        destruct (toward_low dd); lia.
      * congruence.
    + intros [Hfull Hown].
      apply push_true in H as (k & t' & Hk & _ & _ & _ & _ & Hcase); [|done].
      destruct Hcase as [(Hblank & _)|(_ & v & Hv & _ & Hne & _)].
      * destruct (Hfull k Hk) as (v & Hv & HX). unfold blank_at in Hblank. congruence.
      * congruence.
    + by apply push_true in H as (k & t' & _ & _ & Hu & _); [|done].
  - intros (Hroom & Hnotown & Hu).
    destruct (push_is_Some dd rc pl s Hok Hon) as [[ok s'] H].
    destruct ok; [by exists s'|]. exfalso.
    rewrite push_slide in H. apply slide_false in H; [|done].
    destruct H as [(_ & v & Hv & HvX)|[(Hown & [HX|Hall])|Hu']].
    + apply Hroom. exists v. by rewrite Hbehind.
    + done.
    + apply Hnotown. rewrite Hfar. split; [|done].
      intros j Hj. rewrite line_ahead. apply Hall.
      rewrite steps_along in Hj. destruct (toward_low dd); lia.
    + congruence.
Qed.

(** X6.  The calls that are accepted.  On a 7x7 board with both players'
    colours marble colours, [make_move] returns [True] exactly when the
    call passes the guards (turn, no winner, cell on the board, registered
    caller, own marble in the cell), names one of the four directions, the
    cell behind the marble in that direction holds no marble, the push
    would not force a marble of the caller's colour off the far edge, and
    the no-go move does not name this push. *)
Theorem accepted_calls p rc d s :
  board_ok (the_board s) →
  get_color (players s).1 ≠ X → get_color (players s).2 ≠ X →
  (∃ s', make_move p rc d s = Some (true, s'))
  ↔ ∃ curr dd,
      passes_guards p rc curr s ∧ d = dir_name dd
      ∧ ¬ marble_at (the_board s) (ahead dd rc (-1))
      ∧ ¬ (no_blank_ahead (the_board s) dd rc
           ∧ cellAt (the_board s) (far_edge dd rc).1 (far_edge dd rc).2
             = Some (get_color (player_at curr s)))
      ∧ undoes (no_go_move s) rc (dir_name dd) = false.
Proof.
  intros Hok Hc1 Hc2.
  assert (Hcol : ∀ curr, get_color (player_at curr s) ≠ X).
  { intros curr. unfold player_at. by case_decide. }
  rewrite make_move_accepts by done. split.
  - intros (curr & dd & s2 & Hadm & -> & H2).
    exists curr, dd. split; [done|]. split; [done|].
    apply push_rules; [done|apply Hadm|done|by exists s2].
  - intros (curr & dd & Hadm & -> & Hrules).
    apply push_rules in Hrules as [s2 H2]; [|done|apply Hadm|done].
    by exists curr, dd, s2.
Qed.

Lemma accepted_calls_witness :
  (∃ s', make_move "PlayerA" (6, 5) "F" main_game = Some (true, s'))
  ↔ ∃ curr dd,
      passes_guards "PlayerA" (6, 5) curr main_game ∧ "F"%string = dir_name dd
      ∧ ¬ marble_at (the_board main_game) (ahead dd (6, 5) (-1))
      ∧ ¬ (no_blank_ahead (the_board main_game) dd (6, 5)
           ∧ cellAt (the_board main_game) (far_edge dd (6, 5)).1 (far_edge dd (6, 5)).2
             = Some (get_color (player_at curr main_game)))
      ∧ undoes (no_go_move main_game) (6, 5) (dir_name dd) = false.
Proof.
  apply (accepted_calls "PlayerA" (6, 5) "F" main_game).
  - exact main_game_board_ok.
  - discriminate.
  - discriminate.
Defined.

(** ** Captures and tallies along a game *)

(** A player's captures are within the winning thresholds, and below
    them while nobody has won. *)
Definition within_thresholds (pl : KubaPlayer) (w : option string) : Prop :=
  0 ≤ get_red pl ≤ 7 ∧ 0 ≤ get_opponent_marbles pl ≤ 8
  ∧ (w = None → get_red pl < 7 ∧ get_opponent_marbles pl < 8).

Lemma accepted_call_thresholds p rc d s s' :
  make_move p rc d s = Some (true, s') →
  within_thresholds (players s).1 (winner s) →
  within_thresholds (players s).2 (winner s) →
  within_thresholds (players s').1 (winner s')
  ∧ within_thresholds (players s').2 (winner s').
Proof.
  intros H.
  apply make_move_true in H
    as (curr & dd & s1 & s2 & t & _ & Hw & _ & Hcurr & _ & H1 & _ & H2 & _ & ->).
  apply any_legal_move_spec in H1 as ((Hp1 & Hw1 & _) & _).
  apply push_frame in H2 as [(Hp2 & Hw2 & _) _].
  destruct (with_turn_frame p s) as (Hp0 & Hw0 & _).
  assert (Hp : players s2 = players s) by congruence.
  assert (Hws : winner s2 = None) by congruence.
  rewrite commit_winner, commit_players, Hws, Hw.
  unfold within_thresholds, booked, update_marbles, update_player, player_at.
  rewrite Hp. destruct (players s) as [a b]. simpl.
  intros (Ha1 & Ha2 & Ha3) (Hb1 & Hb2 & Hb3).
  specialize (Ha3 eq_refl). specialize (Hb3 eq_refl).
  destruct (resolve_index _ _ _ Hcurr) as [-> | ->];
    destruct (captured_marble s2) as [c|]; simpl;
    repeat (case_decide; simpl; try lia);
    repeat case_bool_decide; simpl; rewrite ?Hp in *; simpl in *;
    repeat split; try lia; try done.
Qed.

(** X7.  After any sequence of accepted calls from a freshly constructed
    game, each player holds at most 7 captured red marbles and at most 8
    captured opponent marbles, and fewer than that while no winner is
    recorded: nobody captures beyond the winning count. *)
Theorem captures_within_thresholds pc_tup_1 pc_tup_2 s :
  played (KubaGame_init pc_tup_1 pc_tup_2) s →
  within_thresholds (players s).1 (winner s)
  ∧ within_thresholds (players s).2 (winner s).
Proof.
  induction 1 as [|s p rc d s' _ [IH1 IH2] H].
  - unfold within_thresholds. simpl. lia.
  - by eapply accepted_call_thresholds.
Qed.

Lemma captures_within_thresholds_witness :
  within_thresholds (players after_first_move).1 (winner after_first_move)
  ∧ within_thresholds (players after_first_move).2 (winner after_first_move).
Proof.
  apply (captures_within_thresholds ("PlayerA"%string, W) ("PlayerB"%string, B)).
  apply (played_move _ main_game "PlayerA" (6, 5) "F").
  - apply played_none.
  - vm_compute. reflexivity.
Defined.

(** The cells of a board weighed by [f] and added up. *)
Definition tally_in (f : cell → Z) (r : list cell) : Z :=
  foldr (λ v acc, f v + acc) 0 r.

Definition tally_on (f : cell → Z) (b : board) : Z :=
  foldr (λ r acc, tally_in f r + acc) 0 b.

(** The weight that counts the marbles of colour [v]. *)
Definition is_color (v : cell) (u : cell) : Z := if decide (u = v) then 1 else 0.

Lemma count_color_tally v b : count_color v b = tally_on (is_color v) b.
Proof.
  unfold count_color, tally_on. induction b as [|r b IH]; [done|]. simpl.
  rewrite IH. f_equal.
  induction r as [|u r IHr]; [done|]. simpl. rewrite filter_cons.
  unfold is_color at 1. case_decide; simpl; lia.
Qed.

Section tally.
Context (f : cell → Z).

Lemma tally_in_insert (r : list cell) (i : nat) v old :
  r !! i = Some old →
  tally_in f (<[i := v]> r) + f old = tally_in f r + f v.
Proof.
  revert i. induction r as [|u r IH]; intros [|i] Hi; simplify_eq/=.
  - lia.
  - specialize (IH _ Hi). fold (tally_in f r). fold (tally_in f (<[i:=v]> r)). lia.
Qed.

Lemma tally_on_insert (b : board) (i : nat) row row' :
  b !! i = Some row →
  tally_on f (<[i := row']> b) + tally_in f row = tally_on f b + tally_in f row'.
Proof.
  revert i. induction b as [|u b IH]; intros [|i] Hi; simplify_eq/=.
  - lia.
  - specialize (IH _ Hi). fold (tally_on f b). fold (tally_on f (<[i:=row']> b)). lia.
Qed.

Lemma tally_on_setCell b r c v b' old :
  setCell b r c v = Some b' → cellAt b r c = Some old →
  tally_on f b' + f old = tally_on f b + f v.
Proof.
  intros (row & old' & Hrow & Hold & ->)%setCell_Some Hcell.
  assert (old' = old) as ->.
  { apply cellAt_Some in Hcell as (row' & ? & ?). congruence. }
  apply index_Some in Hrow as [_ Hrow]. apply index_Some in Hold as [_ Hold].
  pose proof (tally_on_insert b _ _ (<[Z.to_nat c := v]> row) Hrow).
  pose proof (tally_in_insert row _ v _ Hold). lia.
Qed.

Context (pos : Z → Z * Z).
Context (pos_inj : ∀ i j, pos i = pos j → i = j).

Let read (t : board) (i : Z) : option cell := cellAt t (pos i).1 (pos i).2.

(** The weight of a looked-up cell, [0] when there is none. *)
Let wt (o : option cell) : Z := from_option f 0 o.

Lemma tally_shift_toward_low body lo hi t t' :
  (∀ num u, body num u
            = (v ← read u (num + 1); setCell u (pos num).1 (pos num).2 v)) →
  lo ≤ hi → is_Some (read t lo) →
  for_each (range lo hi) body t = Some t' →
  tally_on f t' + wt (read t lo) = tally_on f t + wt (read t hi)
  ∧ read t' hi = read t hi.
Proof.
  intros Hbody.
  remember (Z.to_nat (hi - lo)) as n eqn:Hn.
  revert lo t Hn. induction n as [|n IH]; intros lo t Hn Hle Hlo.
  - rewrite range_nil by lia. simpl. intros [= <-].
    replace lo with hi by lia. done.
  - rewrite range_cons by lia. simpl. rewrite Hbody.
    destruct (read t (lo + 1)) as [v|] eqn:Hv; simpl; [|done].
    destruct (setCell t (pos lo).1 (pos lo).2 v) as [t1|] eqn:Ht1; simpl; [|done].
    intros Hrest.
    assert (Hnext : read t1 (lo + 1) = Some v).
    { rewrite <- Hv. eapply read_write_ne; [done..|lia]. }
    apply IH in Hrest as [Hcount Hhi]; [|lia..|by rewrite Hnext].
    rewrite Hnext in Hcount.
    assert (Hkeep : read t1 hi = read t hi).
    { eapply read_write_ne; [done..|lia]. }
    rewrite Hkeep in Hcount, Hhi.
    destruct Hlo as [old Hold].
    pose proof (tally_on_setCell _ _ _ _ _ _ Ht1 Hold) as Hset.
    rewrite Hold. simpl in *. split; [lia|done].
Qed.

Lemma tally_shift_toward_high body lo hi t t' :
  (∀ num u, body num u
            = (v ← read u (num - 1); setCell u (pos num).1 (pos num).2 v)) →
  lo ≤ hi → is_Some (read t hi) →
  for_each (range_down hi lo) body t = Some t' →
  tally_on f t' + wt (read t hi) = tally_on f t + wt (read t lo)
  ∧ read t' lo = read t lo.
Proof.
  intros Hbody.
  remember (Z.to_nat (hi - lo)) as n eqn:Hn.
  revert hi t Hn. induction n as [|n IH]; intros hi t Hn Hle Hhi.
  - rewrite range_down_nil by lia. simpl. intros [= <-].
    replace hi with lo by lia. done.
  - rewrite range_down_cons by lia. simpl. rewrite Hbody.
    destruct (read t (hi - 1)) as [v|] eqn:Hv; simpl; [|done].
    destruct (setCell t (pos hi).1 (pos hi).2 v) as [t1|] eqn:Ht1; simpl; [|done].
    intros Hrest.
    assert (Hnext : read t1 (hi - 1) = Some v).
    { rewrite <- Hv. eapply read_write_ne; [done..|lia]. }
    apply IH in Hrest as [Hcount Hlo]; [|lia..|by rewrite Hnext].
    rewrite Hnext in Hcount.
    assert (Hkeep : read t1 lo = read t lo).
    { eapply read_write_ne; [done..|lia]. }
    rewrite Hkeep in Hcount, Hlo.
    destruct Hhi as [old Hold].
    pose proof (tally_on_setCell _ _ _ _ _ _ Ht1 Hold) as Hset.
    rewrite Hold. simpl in *. split; [lia|done].
Qed.
End tally.

(** The steps of a push that goes through: where the scan stopped, what
    the stopping cell held, the shift and the final write. *)
Lemma slide_true_steps pos i low d inv rc pl s s' :
  0 ≤ i ≤ 6 →
  slide pos i low d inv rc pl s = Some (true, s') →
  ∃ stop last t1 t2,
    (if low then 0 ≤ stop ≤ i else i ≤ stop ≤ 6)
    ∧ cellAt (the_board s) (pos stop).1 (pos stop).2 = Some last
    ∧ (last ≠ X → stop = (if low then 0 else 6))
    ∧ (∀ j, (if low then stop < j ≤ i else i ≤ j < stop) →
            is_marble (cellAt (the_board s) (pos j).1 (pos j).2))
    ∧ captured_marble s' = (if decide (last = X) then None else Some last)
    ∧ for_each (if low then range stop i else range_down stop i)
        (λ num t, v ← cellAt t (pos (if low then num + 1 else num - 1)).1
                               (pos (if low then num + 1 else num - 1)).2;
                  setCell t (pos num).1 (pos num).2 v) (the_board s) = Some t1
    ∧ setCell t1 (pos i).1 (pos i).2 X = Some t2
    ∧ temp_board s' = Some t2.
Proof.
  intros Hi H. unfold slide in H. cbv zeta in H.
  bind_inv H blocked Hblocked. destruct blocked; [discriminate H|].
  bind_inv H stop Hstop. bind_inv H edge Hedge.
  destruct edge as [[inverse_bool captured]|]; [|discriminate H].
  simpl in H. destruct (undoes _ _ _) eqn:Hundo; [discriminate H|].
  bind_inv H t1 Ht1. bind_inv H t2 Ht2. injection H as <-. simpl.
  set (look := λ n, cellAt (the_board s) (pos n).1 (pos n).2) in *.
  set (far := if low then 0 else 6) in *.
  assert (Hscan : (look stop = Some X
                   ∧ (if low then 0 ≤ stop ≤ i else i ≤ stop ≤ 6)
                   ∧ ∀ j, (if low then stop < j ≤ i else i ≤ j < stop) → is_marble (look j))
                  ∨ (stop = far ∧ is_marble (look far)
                     ∧ ∀ j, (if low then stop < j ≤ i else i ≤ j < stop) → is_marble (look j))).
  { destruct low.
    - apply find_blank_range_down in Hstop as [(? & ? & ?)|[-> Hall]].
      + left. split; [done|]. split; [lia|done].
      + right. split; [done|]. split; [apply Hall; unfold far; lia|].
        intros j Hj. apply Hall. unfold far in Hj. lia.
    - apply find_blank_range in Hstop as [(? & ? & ?)|[-> Hall]].
      + left. split; [done|]. split; [lia|done].
      + right. split; [done|]. split; [apply Hall; unfold far; lia|].
        intros j Hj. apply Hall. unfold far in Hj. lia. }
  assert (Hrange : if low then 0 ≤ stop ≤ i else i ≤ stop ≤ 6).
  { destruct Hscan as [(_ & ? & _)|(-> & _)]; [done|]. unfold far. destruct low; lia. }
  assert (Hmarb : ∀ j, (if low then stop < j ≤ i else i ≤ j < stop) → is_marble (look j)).
  { by destruct Hscan as [(_ & _ & ?)|(_ & _ & ?)]. }
  assert (Hlast : ∃ last, look stop = Some last
                    ∧ (last ≠ X → stop = far)
                    ∧ captured = (if decide (last = X) then None else Some last)).
  { case_decide as Hfar.
    - unfold look in *.
      destruct (cellAt (the_board s) (pos stop).1 (pos stop).2) as [last|] eqn:Hl;
        simpl in Hedge; [|discriminate Hedge].
      exists last. split; [done|]. split; [done|].
      case_decide; [discriminate Hedge|]. case_decide as HX.
      + injection Hedge as <- <-. by rewrite decide_False.
      + injection Hedge as <- <-. by rewrite decide_True.
    - injection Hedge as <- <-.
      destruct Hscan as [(HX & _)|(? & _)]; [|done].
      exists X. split; [done|]. split; [done|]. by rewrite decide_True. }
  destruct Hlast as (last & Hl & Hlfar & ->).
  by exists stop, last, t1, t2.
Qed.

(** The weighed count of a board after a push that goes through: the
    content of the stopping cell leaves, an empty cell comes in. *)
Lemma slide_tally (f : cell → Z) pos i low d inv rc pl s s' t' :
  (∀ a b, pos a = pos b → a = b) → 0 ≤ i ≤ 6 →
  slide pos i low d inv rc pl s = Some (true, s') →
  temp_board s' = Some t' →
  tally_on f t' + from_option f (f X) (captured_marble s')
  = tally_on f (the_board s) + f X.
Proof.
  intros Hinj Hi H Ht'.
  apply slide_true_steps in H
    as (stop & last & t1 & t2 & Hrange & Hlast & _ & _ & Hcap & Ht1 & Ht2 & Ht); [|done].
  assert (t' = t2) as -> by congruence.
  assert (Hshift : tally_on f t1 + f last
                   = tally_on f (the_board s)
                     + from_option f 0 (cellAt (the_board s) (pos i).1 (pos i).2)
                   ∧ cellAt t1 (pos i).1 (pos i).2
                     = cellAt (the_board s) (pos i).1 (pos i).2).
  { destruct low.
    - eapply (tally_shift_toward_low f pos Hinj) in Ht1 as [Hc Hkeep];
        [|done|lia|by rewrite Hlast].
      rewrite Hlast in Hc. done.
    - eapply (tally_shift_toward_high f pos Hinj) in Ht1 as [Hc Hkeep];
        [|done|lia|by rewrite Hlast].
      rewrite Hlast in Hc. done. }
  destruct Hshift as [Hc Hkeep].
  assert (Horigin : ∃ old, cellAt t1 (pos i).1 (pos i).2 = Some old).
  { apply setCell_Some in Ht2 as (row & old & Hrow & Hold & _).
    exists old. apply cellAt_Some. eauto. }
  destruct Horigin as [old Hold].
  pose proof (tally_on_setCell f _ _ _ _ _ _ Ht2 Hold) as Hset.
  rewrite <- Hkeep, Hold in Hc. simpl in Hc.
  rewrite Hcap. case_decide as HX; simpl; [subst last|]; lia.
Qed.

Lemma push_tally (f : cell → Z) d rc pl s s' t' :
  on_board rc → push d rc pl s = Some (true, s') → temp_board s' = Some t' →
  tally_on f t' + from_option f (f X) (captured_marble s')
  = tally_on f (the_board s) + f X.
Proof.
  intros Hon. rewrite push_slide.
  apply slide_tally; [apply line_inj|by apply along_on_board].
Qed.

(** An accepted call lowers each tally by what it takes off the board in
    that colour. *)
Lemma accepted_call_tallies p rc d s s' :
  make_move p rc d s = Some (true, s') →
  red s' - count_color R (the_board s') = red s - count_color R (the_board s)
  ∧ white s' - count_color W (the_board s') = white s - count_color W (the_board s)
  ∧ black s' - count_color B (the_board s') = black s - count_color B (the_board s).
Proof.
  intros H.
  apply make_move_true in H
    as (curr & dd & s1 & s2 & t & _ & _ & Hon & _ & _ & H1 & _ & H2 & Ht & ->).
  apply any_legal_move_spec in H1 as ((_ & _ & _ & Hb1 & Hr1 & Hw1 & Hbl1) & _).
  destruct (with_turn_frame p s) as (_ & _ & Hb0 & Hr0 & Hw0 & Hbl0 & _).
  pose proof (push_frame _ _ _ _ _ _ H2) as [(_ & _ & _ & _ & Hr2 & Hw2 & Hbl2) _].
  rewrite commit_board.
  destruct (commit_counts p curr t s2) as (-> & -> & ->).
  rewrite !count_color_tally.
  pose proof (push_tally (is_color R) _ _ _ _ _ _ Hon H2 Ht) as HR.
  pose proof (push_tally (is_color W) _ _ _ _ _ _ Hon H2 Ht) as HW.
  pose proof (push_tally (is_color B) _ _ _ _ _ _ Hon H2 Ht) as HB.
  rewrite Hb1, Hb0 in HR, HW, HB.
  assert (Hcap : ∀ c, captured_marble s2 = Some c → c ≠ X).
  { intros c Hc.
    apply push_true in H2 as (_ & _ & _ & _ & _ & _ & _ & [(_ & Hn & _)|(_ & v & _ & ? & _ & Hv & _)]);
      [congruence|congruence|done]. }
  unfold booked, update_marbles, update_player.
  destruct (captured_marble s2) as [c|]; simpl in *.
  - specialize (Hcap c eq_refl).
    destruct c; try done; unfold is_color in *; simpl in *;
      repeat (case_decide; simplify_eq; simpl in * ); lia.
  - unfold is_color in *; simpl in *. lia.
Qed.

(** X8.  After any sequence of accepted calls from a freshly constructed
    game, [get_marble_count] reports the black and the red marbles that are
    on the board, and one white marble fewer than are on the board. *)
Theorem marble_count_tracks_board pc_tup_1 pc_tup_2 s :
  played (KubaGame_init pc_tup_1 pc_tup_2) s →
  get_marble_count s
  = (count_color W (the_board s) - 1, count_color B (the_board s),
     count_color R (the_board s)).
Proof.
  intros Hplayed. unfold get_marble_count.
  assert (red s - count_color R (the_board s) = 0
          ∧ white s - count_color W (the_board s) = -1
          ∧ black s - count_color B (the_board s) = 0) as (Hr & Hw & Hb).
  { induction Hplayed as [|s p rc d s' _ IH H].
    - by vm_compute.
    - apply accepted_call_tallies in H. lia. }
  f_equal; [f_equal|]; lia.
Qed.

Lemma marble_count_tracks_board_witness :
  get_marble_count after_a_forward
  = (count_color W (the_board after_a_forward) - 1,
     count_color B (the_board after_a_forward),
     count_color R (the_board after_a_forward)).
Proof.
  apply (marble_count_tracks_board ("PlayerA"%string, W) ("PlayerB"%string, B)).
  apply (played_move _ after_b_left "PlayerA" (2, 6) "F").
  - apply (played_move _ main_game "PlayerB" (0, 6) "L").
    + apply played_none.
    + vm_compute. reflexivity.
  - vm_compute. reflexivity.
Defined.

(** ** The board after a push, cell by cell *)

Section moved.
Context (pos : Z → Z * Z).
Context (pos_inj : ∀ i j, pos i = pos j → i = j).

Let read (t : board) (i : Z) : option cell := cellAt t (pos i).1 (pos i).2.

Lemma cells_shift_toward_low body lo hi t t' :
  (∀ num u, body num u
            = (v ← read u (num + 1); setCell u (pos num).1 (pos num).2 v)) →
  lo ≤ hi →
  for_each (range lo hi) body t = Some t' →
  (∀ j, lo ≤ j < hi → read t' j = read t (j + 1))
  ∧ (∀ r c, (∀ j, lo ≤ j < hi → (r, c) ≠ pos j) → cellAt t' r c = cellAt t r c).
Proof.
  intros Hbody.
  remember (Z.to_nat (hi - lo)) as n eqn:Hn.
  revert lo t Hn. induction n as [|n IH]; intros lo t Hn Hle.
  - rewrite range_nil by lia. simpl. intros [= <-]. split; [lia|done].
  - rewrite range_cons by lia. simpl. rewrite Hbody.
    destruct (read t (lo + 1)) as [v|] eqn:Hv; simpl; [|done].
    destruct (setCell t (pos lo).1 (pos lo).2 v) as [t1|] eqn:Ht1; simpl; [|done].
    intros Hrest. apply IH in Hrest as [Hmoved Hframe]; [|lia..].
    split.
    + intros j Hj. destruct (decide (j = lo)) as [->|Hne].
      * unfold read. rewrite Hframe.
        -- transitivity (Some v); [by eapply cellAt_setCell_eq|by symmetry].
        -- intros j Hj' Heq. rewrite <- surjective_pairing in Heq.
           apply pos_inj in Heq. lia.
      * rewrite Hmoved by lia.
        eapply (read_write_ne pos pos_inj); [done|lia].
    + intros r c Hout. rewrite Hframe by (intros j Hj; apply Hout; lia).
      eapply cellAt_setCell_ne; [done|].
      rewrite <- surjective_pairing. apply Hout. lia.
Qed.

Lemma cells_shift_toward_high body lo hi t t' :
  (∀ num u, body num u
            = (v ← read u (num - 1); setCell u (pos num).1 (pos num).2 v)) →
  lo ≤ hi →
  for_each (range_down hi lo) body t = Some t' →
  (∀ j, lo < j ≤ hi → read t' j = read t (j - 1))
  ∧ (∀ r c, (∀ j, lo < j ≤ hi → (r, c) ≠ pos j) → cellAt t' r c = cellAt t r c).
Proof.
  intros Hbody.
  remember (Z.to_nat (hi - lo)) as n eqn:Hn.
  revert hi t Hn. induction n as [|n IH]; intros hi t Hn Hle.
  - rewrite range_down_nil by lia. simpl. intros [= <-]. split; [lia|done].
  - rewrite range_down_cons by lia. simpl. rewrite Hbody.
    destruct (read t (hi - 1)) as [v|] eqn:Hv; simpl; [|done].
    destruct (setCell t (pos hi).1 (pos hi).2 v) as [t1|] eqn:Ht1; simpl; [|done].
    intros Hrest. apply IH in Hrest as [Hmoved Hframe]; [|lia..].
    split.
    + intros j Hj. destruct (decide (j = hi)) as [->|Hne].
      * unfold read. rewrite Hframe.
        -- transitivity (Some v); [by eapply cellAt_setCell_eq|by symmetry].
        -- intros j Hj' Heq. rewrite <- surjective_pairing in Heq.
           apply pos_inj in Heq. lia.
      * rewrite Hmoved by lia.
        eapply (read_write_ne pos pos_inj); [done|lia].
    + intros r c Hout. rewrite Hframe by (intros j Hj; apply Hout; lia).
      eapply cellAt_setCell_ne; [done|].
      rewrite <- surjective_pairing. apply Hout. lia.
Qed.
End moved.

Lemma slide_cells pos i low d inv rc pl s s' :
  (∀ a b, pos a = pos b → a = b) → 0 ≤ i ≤ 6 →
  slide pos i low d inv rc pl s = Some (true, s') →
  ∃ stop last t',
    (if low then 0 ≤ stop ≤ i else i ≤ stop ≤ 6)
    ∧ cellAt (the_board s) (pos stop).1 (pos stop).2 = Some last
    ∧ (last ≠ X → stop = (if low then 0 else 6))
    ∧ (∀ j, (if low then stop < j ≤ i else i ≤ j < stop) →
            is_marble (cellAt (the_board s) (pos j).1 (pos j).2))
    ∧ temp_board s' = Some t'
    ∧ cellAt t' (pos i).1 (pos i).2 = Some X
    ∧ (∀ n, (if low then stop ≤ n < i else i < n ≤ stop) →
            cellAt t' (pos n).1 (pos n).2
            = cellAt (the_board s) (pos (if low then n + 1 else n - 1)).1
                                   (pos (if low then n + 1 else n - 1)).2)
    ∧ (∀ r c, (∀ n, (if low then stop ≤ n ≤ i else i ≤ n ≤ stop) → (r, c) ≠ pos n) →
              cellAt t' r c = cellAt (the_board s) r c).
Proof.
  intros Hinj Hi H.
  apply slide_true_steps in H
    as (stop & last & t1 & t2 & Hrange & Hlast & Hfar & Hmarb & _ & Ht1 & Ht2 & Ht); [|done].
  exists stop, last, t2. do 5 (split; [done|]).
  split; [by eapply cellAt_setCell_eq|].
  assert (Hne : ∀ n, n ≠ i → (pos n).1 = (pos n).1 → ((pos n).1, (pos n).2) ≠ ((pos i).1, (pos i).2)).
  { intros n Hn _ Heq. rewrite <- !surjective_pairing in Heq. by apply Hinj in Heq. }
  destruct low.
  - eapply (cells_shift_toward_low pos Hinj) in Ht1 as [Hmoved Hframe]; [|done|lia].
    split.
    + intros n Hn. rewrite <- Hmoved by lia.
      eapply cellAt_setCell_ne; [done|]. apply Hne; [lia|done].
    + intros r c Hout. rewrite <- Hframe by (intros j Hj; apply Hout; lia).
      eapply cellAt_setCell_ne; [done|].
      rewrite <- surjective_pairing. apply Hout. lia.
  - eapply (cells_shift_toward_high pos Hinj) in Ht1 as [Hmoved Hframe]; [|done|lia].
    split.
    + intros n Hn. rewrite <- Hmoved by lia.
      eapply cellAt_setCell_ne; [done|]. apply Hne; [lia|done].
    + intros r c Hout. rewrite <- Hframe by (intros j Hj; apply Hout; lia).
      eapply cellAt_setCell_ne; [done|].
      rewrite <- surjective_pairing. apply Hout. lia.
Qed.

(** The board a push builds, in the vocabulary of the specification: the
    requested cell becomes empty, each cell of the line up to the stopping
    cell takes the content of the cell before it, and no other cell
    changes. *)
Lemma push_cells dd rc pl s s' :
  on_board rc → push dd rc pl s = Some (true, s') →
  ∃ k t',
    0 ≤ k ≤ steps_to_edge dd rc
    ∧ (first_blank_after (the_board s) dd rc k
       ∨ (k = steps_to_edge dd rc ∧ no_blank_ahead (the_board s) dd rc))
    ∧ temp_board s' = Some t'
    ∧ cellAt t' rc.1 rc.2 = Some X
    ∧ (∀ j, 1 ≤ j ≤ k →
            cellAt t' (ahead dd rc j).1 (ahead dd rc j).2
            = cellAt (the_board s) (ahead dd rc (j - 1)).1 (ahead dd rc (j - 1)).2)
    ∧ (∀ r c, (∀ j, 0 ≤ j ≤ k → (r, c) ≠ ahead dd rc j) →
              cellAt t' r c = cellAt (the_board s) r c).
Proof.
  intros Hon H. rewrite push_slide in H.
  pose proof (along_on_board dd rc Hon) as Hi.
  apply slide_cells in H; [|apply line_inj|done].
  destruct H as (stop & last & t' & Hrange & Hlast & Hfar & Hmarb & Ht & HX & Hmoved & Hframe).
  rewrite line_along in HX.
  set (k := if toward_low dd then along dd rc - stop else stop - along dd rc).
  assert (Hk : 0 ≤ k ≤ steps_to_edge dd rc).
  { unfold k. rewrite steps_along. destruct (toward_low dd); lia. }
  assert (Hidx : ∀ j, ahead dd rc j
                      = line dd rc (if toward_low dd then along dd rc - j
                                    else along dd rc + j)) by apply line_ahead.
  assert (Hstop : ahead dd rc k = line dd rc stop).
  { rewrite Hidx; f_equal; unfold k; destruct (toward_low dd); lia. }
  exists k, t'. split; [done|]. split; [|split; [done|split; [done|split]]].
  - assert (Hbefore : ∀ j, 0 ≤ j < k → marble_at (the_board s) (ahead dd rc j)).
    { intros j Hj. rewrite Hidx. apply Hmarb. unfold k in Hj.
      destruct (toward_low dd); lia. }
    destruct (decide (last = X)) as [->|HlX].
    + left. split; [done|]. split; [|done]. unfold blank_at. by rewrite Hstop.
    + right. specialize (Hfar HlX).
      assert (k = steps_to_edge dd rc) as Hks.
      { unfold k. rewrite steps_along. destruct (toward_low dd); lia. }
      split; [done|]. intros j Hj.
      destruct (decide (j = k)) as [->|]; [|apply Hbefore; lia].
      exists last. by rewrite Hstop.
  - intros j Hj. rewrite !Hidx.
    rewrite Hmoved by (unfold k in Hj; destruct (toward_low dd); lia).
    do 2 f_equal; f_equal; destruct (toward_low dd); lia.
  - intros r c Hout. apply Hframe. intros n Hn Heq.
    apply (Hout (if toward_low dd then along dd rc - n else n - along dd rc)).
    + unfold k. destruct (toward_low dd); lia.
    + rewrite Heq, Hidx. f_equal. destruct (toward_low dd); lia.
Qed.

Lemma ahead_on_board dd rc j :
  on_board rc → 0 ≤ j ≤ steps_to_edge dd rc → on_board (ahead dd rc j).
Proof. intros [??] ?. destruct dd; unfold on_board in *; simpl in *; lia. Qed.

(** X9.  The board after an accepted call, cell by cell, as [get_marble]
    reads it at coordinates within the board: the requested cell is empty,
    each cell of the line from the next one up to the one where the scan
    stopped holds what the cell before it held, and every other cell of
    the board holds what it held.  The scan stopped at the first empty
    cell of the line, or at the far edge when there was none. *)
Theorem board_after_accepted_call p rc d s s' :
  make_move p rc d s = Some (true, s') →
  ∃ dd k, d = dir_name dd
    ∧ 0 ≤ k ≤ steps_to_edge dd rc
    ∧ (first_blank_after (the_board s) dd rc k
       ∨ (k = steps_to_edge dd rc ∧ no_blank_ahead (the_board s) dd rc))
    ∧ get_marble rc s' = Some X
    ∧ (∀ j, 1 ≤ j ≤ k →
            get_marble (ahead dd rc j) s' = get_marble (ahead dd rc (j - 1)) s)
    ∧ (∀ q, on_board q → (∀ j, 0 ≤ j ≤ k → q ≠ ahead dd rc j) →
            get_marble q s' = get_marble q s).
Proof.
  intros H.
  apply make_move_true in H
    as (curr & dd & s1 & s2 & t & _ & _ & Hon & _ & _ & H1 & -> & H2 & Ht & ->).
  apply any_legal_move_spec in H1 as ((_ & _ & _ & Hb1 & _) & _).
  destruct (with_turn_frame p s) as (_ & _ & Hb0 & _).
  apply push_cells in H2 as (k & t' & Hk & Hscan & Ht' & HX & Hmoved & Hframe); [|done].
  assert (t' = t) as -> by congruence.
  rewrite Hb1, Hb0 in Hscan, Hmoved, Hframe.
  exists dd, k. do 3 (split; [done|]).
  assert (Hread : ∀ q u, on_board q →
            get_marble q (commit p curr t u) = cellAt t q.1 q.2).
  { intros q u [??]. rewrite get_marble_on_board by lia. by rewrite commit_board. }
  split; [by rewrite Hread|]. split.
  - intros j Hj.
    rewrite Hread by (apply ahead_on_board; [done|lia]).
    rewrite get_marble_on_board by (apply (ahead_on_board dd rc (j - 1)); [done|lia]).
    by apply Hmoved.
  - intros [r c] Hq Hout. rewrite Hread by done.
    destruct Hq. rewrite get_marble_on_board by (simpl in *; lia). by apply Hframe.
Qed.

Lemma board_after_accepted_call_witness :
  ∃ dd k, "F"%string = dir_name dd
    ∧ 0 ≤ k ≤ steps_to_edge dd (6, 5)
    ∧ (first_blank_after (the_board main_game) dd (6, 5) k
       ∨ (k = steps_to_edge dd (6, 5) ∧ no_blank_ahead (the_board main_game) dd (6, 5)))
    ∧ get_marble (6, 5) after_first_move = Some X
    ∧ (∀ j, 1 ≤ j ≤ k →
            get_marble (ahead dd (6, 5) j) after_first_move
            = get_marble (ahead dd (6, 5) (j - 1)) main_game)
    ∧ (∀ q, on_board q → (∀ j, 0 ≤ j ≤ k → q ≠ ahead dd (6, 5) j) →
            get_marble q after_first_move = get_marble q main_game).
Proof.
  apply (board_after_accepted_call "PlayerA" (6, 5) "F" main_game after_first_move).
  vm_compute. reflexivity.
Defined.

(** ** The no-go move is the undoing push *)

Lemma first_blank_unique b dd rc k1 k2 :
  first_blank_after b dd rc k1 → first_blank_after b dd rc k2 → k1 = k2.
Proof.
  intros (Hr1 & Hb1 & Hm1) (Hr2 & Hb2 & Hm2).
  destruct (Z.lt_trichotomy k1 k2) as [Hlt|[?|Hlt]]; [|done|].
  - destruct (Hm2 k1) as (v & Hv & HX); [lia|]. unfold blank_at in Hb1. congruence.
  - destruct (Hm1 k2) as (v & Hv & HX); [lia|]. unfold blank_at in Hb2. congruence.
Qed.

Lemma first_blank_not_full b dd rc k :
  first_blank_after b dd rc k → ¬ no_blank_ahead b dd rc.
Proof.
  intros (Hr & Hb & _) Hfull. destruct (Hfull k Hr) as (v & Hv & HX).
  unfold blank_at in Hb. congruence.
Qed.

Lemma ahead_opposite dd rc k j :
  ahead (opposite dd) (ahead dd rc k) j = ahead dd rc (k - j).
Proof. destruct dd; simpl; f_equal; lia. Qed.

Lemma steps_opposite_far dd rc :
  steps_to_edge (opposite dd) (far_edge dd rc) = 6.
Proof. unfold far_edge. destruct dd; simpl; lia. Qed.

Lemma on_line_dec dd rc k (q : Z * Z) :
  (∃ m, 0 ≤ m ≤ k ∧ q = ahead dd rc m) ∨ (∀ m, 0 ≤ m ≤ k → q ≠ ahead dd rc m).
Proof.
  destruct q as [r c], rc as [r0 c0].
  destruct dd; simpl.
  - destruct (decide (r = r0 ∧ 0 ≤ c0 - c ≤ k)) as [[-> ?]|Hn].
    + left. exists (c0 - c). split; [done|]. f_equal. lia.
    + right. intros m Hm [= -> ->]. apply Hn. lia.
  - destruct (decide (r = r0 ∧ 0 ≤ c - c0 ≤ k)) as [[-> ?]|Hn].
    + left. exists (c - c0). split; [done|]. f_equal. lia.
    + right. intros m Hm [= -> ->]. apply Hn. lia.
  - destruct (decide (c = c0 ∧ 0 ≤ r0 - r ≤ k)) as [[-> ?]|Hn].
    + left. exists (r0 - r). split; [done|]. f_equal. lia.
    + right. intros m Hm [= -> ->]. apply Hn. lia.
  - destruct (decide (c = c0 ∧ 0 ≤ r - r0 ≤ k)) as [[-> ?]|Hn].
    + left. exists (r - r0). split; [done|]. f_equal. lia.
    + right. intros m Hm [= -> ->]. apply Hn. lia.
Qed.

(** Two 7x7 boards with the same content in every cell are one board. *)
Lemma board_ext b1 b2 :
  board_ok b1 → board_ok b2 →
  (∀ r c, 0 ≤ r ≤ 6 → 0 ≤ c ≤ 6 → cellAt b1 r c = cellAt b2 r c) → b1 = b2.
Proof.
  intros [Hl1 Ha1] [Hl2 Ha2] Hcells.
  apply list_eq_same_length with 7%nat; [done..|].
  intros i row1 row2 Hi Hr1 Hr2.
  rewrite Forall_lookup in Ha1, Ha2.
  apply list_eq_same_length with 7%nat;
    [exact (Ha2 _ _ Hr2)|exact (Ha1 _ _ Hr1)|].
  intros j v1 v2 Hj Hv1 Hv2.
  specialize (Hcells (Z.of_nat i) (Z.of_nat j) ltac:(lia) ltac:(lia)).
  unfold cellAt, index in Hcells.
  rewrite !decide_True, !Nat2Z.id in Hcells by lia.
  rewrite Hr1, Hr2 in Hcells. simpl in Hcells.
  rewrite ?decide_True, ?Nat2Z.id in Hcells by lia.
  congruence.
Qed.

Lemma ahead_0 dd rc : ahead dd rc 0 = rc.
Proof. destruct dd, rc as [r c]; simpl; f_equal; lia. Qed.

Lemma steps_on_board dd rc : on_board rc → 0 ≤ steps_to_edge dd rc ≤ 6.
Proof. intros [??]. destruct dd; simpl; lia. Qed.

(** X10.  The no-go move names the push that undoes the last one.  When an
    accepted call on a 7x7 board leaves a no-go move, the call with the
    cell and the direction of that no-go move, were the no-go move not in
    force and the call accepted, would give back the very board the first
    call started from. *)
Theorem no_go_move_is_the_undo p rc d s s' q r0 c0 d0 s'' :
  board_ok (the_board s) →
  make_move p rc d s = Some (true, s') →
  no_go_move s' = Some (r0, c0, d0) →
  make_move q (r0, c0) d0 (set_no_go_move None s') = Some (true, s'') →
  the_board s'' = the_board s.
Proof.
  intros Hok H Htok H'.
  pose proof (make_move_board_ok _ _ _ _ _ _ Hok H) as Hok1.
  pose proof (make_move_board_ok _ _ _ (set_no_go_move None s') _ _ Hok1 H') as Hok2.
  (* the first call *)
  apply make_move_true in H
    as (curr & dd & s1 & s2 & t1 & _ & _ & Hon & _ & _ & H1 & -> & H2 & Ht1 & ->).
  apply any_legal_move_spec in H1 as ((_ & _ & _ & Hb1 & _) & _).
  destruct (with_turn_frame p s) as (_ & _ & Hb0 & _).
  rewrite commit_no_go in Htok. rewrite commit_board in Hok1.
  pose proof (push_true _ _ _ _ _ Hon H2)
    as (k1 & t1' & Hk1 & Hmarb1 & _ & _ & _ & Hcase).
  rewrite Hb1, Hb0 in Hcase, Hmarb1.
  destruct Hcase as [(Hblank1 & _ & Hn & _)|(_ & _ & _ & _ & _ & _ & Hn & _)];
    [|congruence].
  rewrite Htok in Hn. case_decide as Hk1s; [|discriminate Hn].
  injection Hn as Hr0 Hc0 Hd0.
  apply push_cells in H2 as (k & t1'' & Hk & Hscan & Ht1'' & HX1 & Hmoved1 & Hframe1); [|done].
  assert (t1'' = t1) as -> by congruence.
  rewrite Hb1, Hb0 in Hscan, Hmoved1, Hframe1.
  destruct Hscan as [Hfirst|[_ Hfull]].
  2:{ destruct (Hfull k1 Hk1) as (v & Hv & HvX). unfold blank_at in Hblank1. congruence. }
  assert (k = k1) as Hkk.
  { destruct (Z.lt_trichotomy k k1) as [Hlt|[?|Hlt]]; [|done|].
    - destruct Hfirst as (_ & Hb & _). destruct (Hmarb1 k) as (v & Hv & HvX); [lia|].
      unfold blank_at in Hb. congruence.
    - destruct Hfirst as (_ & _ & Hm). destruct (Hm k1) as (v & Hv & HvX); [lia|].
      unfold blank_at in Hblank1. congruence. }
  assert (Hks : k = steps_to_edge dd rc) by lia.
  clear Hblank1 Hk1 Hmarb1 Hkk Hk1s k1.
  destruct Hfirst as (_ & Hblank & Hmarb).
  assert (Hfar : (r0, c0) = ahead dd rc k).
  { unfold far_edge in Hr0, Hc0. rewrite <- Hks in Hr0, Hc0.
    rewrite Hr0, Hc0. symmetry. apply surjective_pairing. }
  (* the second call *)
  apply make_move_true in H'
    as (curr' & dd' & s1' & s2' & t2 & _ & _ & Hon' & _ & _ & H1' & Hd' & H2' & Ht2 & ->).
  rewrite Hd0 in Hd'. apply dir_name_inj in Hd' as <-.
  apply any_legal_move_spec in H1' as ((_ & _ & _ & Hb1' & _) & _).
  destruct (with_turn_frame q (set_no_go_move None (commit p curr t1 s2)))
    as (_ & _ & Hb0' & _).
  rewrite commit_board. rewrite commit_board in Hok2.
  apply push_cells in H2' as (k2 & t2' & Hk2 & Hscan2 & Ht2' & HX2 & Hmoved2 & Hframe2);
    [|done].
  assert (t2' = t2) as -> by congruence.
  rewrite Hb1', Hb0' in Hscan2, Hmoved2, Hframe2. simpl in Hscan2, Hmoved2, Hframe2.
  rewrite commit_board in Hscan2, Hmoved2, Hframe2.
  rewrite Hfar in *.
  assert (Hfirst2 : first_blank_after t1 (opposite dd) (ahead dd rc k) k).
  { split; [|split].
    - pose proof (steps_opposite_far dd rc) as H6. unfold far_edge in H6.
      rewrite <- Hks in H6.
      pose proof (steps_on_board dd rc Hon). lia.
    - unfold blank_at. rewrite ahead_opposite. replace (k - k) with 0 by lia.
      by rewrite ahead_0.
    - intros j Hj. rewrite ahead_opposite. unfold marble_at.
      rewrite Hmoved1 by lia. apply Hmarb. lia. }
  assert (k2 = k) as ->.
  { destruct Hscan2 as [Hf2|[_ Hfull2]].
    - by eapply first_blank_unique.
    - by destruct (first_blank_not_full _ _ _ _ Hfirst2). }
  (* cell by cell *)
  apply board_ext; [done..|]. intros r c _ _.
  change (cellAt t2 (r, c).1 (r, c).2 = cellAt (the_board s) (r, c).1 (r, c).2).
  generalize (r, c). clear r c. intros cl.
  destruct (on_line_dec dd rc k cl) as [(m & Hm & ->)|Hout].
  - destruct (decide (m = k)) as [->|Hne].
    + rewrite HX2. symmetry. exact Hblank.
    + assert (Hpos : ahead dd rc m = ahead (opposite dd) (ahead dd rc k) (k - m)).
      { rewrite ahead_opposite. f_equal. lia. }
      rewrite Hpos at 1 2. rewrite Hmoved2 by lia.
      rewrite ahead_opposite. replace (k - (k - m - 1)) with (m + 1) by lia.
      rewrite Hmoved1 by lia. by replace (m + 1 - 1) with m by lia.
  - destruct cl as [r c]. simpl. rewrite Hframe2.
    + apply Hframe1. intros j Hj. by apply Hout.
    + intros j Hj. rewrite ahead_opposite. apply Hout. lia.
Qed.

Definition undone_a_forward : KubaGame :=
  Eval vm_compute in
    default main_game
      (snd <$> make_move "PlayerB" (0, 6) "B" (set_no_go_move None after_a_forward)).

Lemma no_go_move_is_the_undo_witness :
  the_board undone_a_forward = the_board after_b_left.
Proof.
  apply (no_go_move_is_the_undo "PlayerA" (2, 6) "F" after_b_left after_a_forward
           "PlayerB" 0 6 "B" undone_a_forward).
  - exact after_b_left_board_ok.
  - vm_compute. reflexivity.
  - reflexivity.
  - vm_compute. reflexivity.
Defined.

(** ** How a capture is booked *)

(** X11.  An accepted call books exactly the marble that fell off.  The
    other player's object is untouched.  When the line had an empty cell,
    the caller's object and the tallies are as they were.  When the line was
    full, the marble [v] on its far edge is no marble of the caller: if it
    is red the caller gains one red marble and the red tally loses one;
    otherwise the caller gains one opponent marble and the tally of that
    colour loses one. *)
Theorem capture_is_booked p rc d s s' :
  make_move p rc d s = Some (true, s') →
  ∃ curr dd, resolve p s = Some curr ∧ d = dir_name dd
    ∧ player_at (1 - curr) s' = player_at (1 - curr) s
    ∧ (((∃ k, first_blank_after (the_board s) dd rc k)
        ∧ player_at curr s' = player_at curr s
        ∧ get_marble_count s' = get_marble_count s)
       ∨ (no_blank_ahead (the_board s) dd rc
          ∧ ∃ v, get_marble (far_edge dd rc) s = Some v
              ∧ v ≠ X ∧ v ≠ get_color (player_at curr s)
              ∧ player_at curr s'
                = (if decide (v = R) then add_red (player_at curr s)
                   else add_opponent_marbles (player_at curr s))
              ∧ get_marble_count s'
                = (white s - (if decide (v = W) then 1 else 0),
                   black s - (if decide (v = B) then 1 else 0),
                   red s - (if decide (v = R) then 1 else 0)))).
Proof.
  intros H.
  apply make_move_true in H
    as (curr & dd & s1 & s2 & t & _ & _ & Hon & Hcurr & _ & H1 & -> & H2 & Ht & ->).
  exists curr, dd. split; [done|]. split; [done|].
  apply any_legal_move_spec in H1 as ((Hp1 & _ & _ & Hb1 & Hr1 & Hw1 & Hbl1) & _).
  destruct (with_turn_frame p s) as (Hp0 & _ & Hb0 & Hr0 & Hw0 & Hbl0 & _).
  pose proof (push_frame _ _ _ _ _ _ H2) as [(Hp2 & _ & _ & _ & Hr2 & Hw2 & Hbl2) _].
  assert (Hp : players s2 = players s) by congruence.
  rewrite player_at_with_turn in H2.
  apply push_true in H2 as (k & t' & Hk & Hmarb & _ & _ & _ & Hcase); [|done].
  rewrite Hb1, Hb0 in Hmarb, Hcase.
  unfold get_marble_count.
  destruct (commit_counts p curr t s2) as (-> & -> & ->).
  unfold player_at. rewrite !commit_players.
  unfold booked, update_marbles, update_player.
  destruct Hcase as [(Hblank & -> & _)|(-> & v & Hv & HX & Hne & -> & _)].
  - rewrite Hp. split; [done|]. left. split; [by exists k|].
    split; [done|]. congruence.
  - split.
    + destruct (resolve_index _ _ _ Hcurr) as [-> | ->];
        repeat case_decide; simpl; by rewrite Hp.
    + right. split.
      { intros j Hj. destruct (decide (j = steps_to_edge dd rc)) as [->|].
        - by exists v.
        - apply Hmarb. lia. }
      assert (Hfar : on_board (far_edge dd rc)).
      { apply ahead_on_board; [done|]. pose proof (steps_on_board dd rc Hon). lia. }
      exists v. split; [destruct Hfar; by rewrite get_marble_on_board by lia|].
      split; [done|]. split; [done|].
      destruct (resolve_index _ _ _ Hcurr) as [-> | ->];
        destruct v; try done; simpl; rewrite ?Hp; simpl;
        (split; [done|]); f_equal; try f_equal; lia.
Qed.

Lemma capture_is_booked_witness :
  ∃ curr dd, resolve "PlayerA" near_win_game = Some curr ∧ "L"%string = dir_name dd
    ∧ player_at (1 - curr) after_seventh_red = player_at (1 - curr) near_win_game
    ∧ (((∃ k, first_blank_after (the_board near_win_game) dd (0, 1) k)
        ∧ player_at curr after_seventh_red = player_at curr near_win_game
        ∧ get_marble_count after_seventh_red = get_marble_count near_win_game)
       ∨ (no_blank_ahead (the_board near_win_game) dd (0, 1)
          ∧ ∃ v, get_marble (far_edge dd (0, 1)) near_win_game = Some v
              ∧ v ≠ X ∧ v ≠ get_color (player_at curr near_win_game)
              ∧ player_at curr after_seventh_red
                = (if decide (v = R) then add_red (player_at curr near_win_game)
                   else add_opponent_marbles (player_at curr near_win_game))
              ∧ get_marble_count after_seventh_red
                = (white near_win_game - (if decide (v = W) then 1 else 0),
                   black near_win_game - (if decide (v = B) then 1 else 0),
                   red near_win_game - (if decide (v = R) then 1 else 0)))).
Proof.
  apply (capture_is_booked "PlayerA" (0, 1) "L" near_win_game after_seventh_red).
  vm_compute. reflexivity.
Defined.

(** ** The scratch attributes *)

(** Two game objects that agree on everything but the scratch attributes
    [_captured_marble] and [_temp_board]. *)
Definition same_game (s1 s2 : KubaGame) : Prop :=
  players s1 = players s2 ∧ winner s1 = winner s2 ∧ turn s1 = turn s2
  ∧ the_board s1 = the_board s2
  ∧ red s1 = red s2 ∧ white s1 = white s2 ∧ black s1 = black s2
  ∧ no_go_move s1 = no_go_move s2.

Lemma passes_guards_same p rc curr s1 s2 :
  same_game s1 s2 → passes_guards p rc curr s1 → passes_guards p rc curr s2.
Proof.
  intros (Hp & Hw & Ht & Hb & _) (G1 & G2 & G3 & G4 & G5).
  unfold passes_guards. rewrite with_turn_turn in *.
  unfold resolve, player_at in *. by rewrite <- Hp, <- Hw, <- Ht, <- Hb.
Qed.

Lemma same_game_sym s1 s2 : same_game s1 s2 → same_game s2 s1.
Proof. unfold same_game. intros (?&?&?&?&?&?&?&?). by repeat split. Qed.

Lemma commit_same p curr t s1 s2 :
  same_game s1 s2 → captured_marble s1 = captured_marble s2 →
  same_game (commit p curr t s1) (commit p curr t s2).
Proof.
  intros Hsame Hc. destruct s1, s2. unfold same_game in *. simpl in *.
  destruct Hsame as (?&?&?&?&?&?&?&?). simplify_eq.
  unfold commit, update_marbles, update_player, player_at. simpl.
  destruct captured_marble1 as [c|]; simpl;
    repeat (case_decide; simpl); repeat (case_match; simpl); done.
Qed.

(** The turn and the winner after a rejected call. *)
Lemma rejected_call_turn_winner p rc d s s' :
  make_move p rc d s = Some (false, s') →
  turn s' = turn (with_turn p s)
  ∧ ((winner s' = winner s
      ∧ ∀ curr, passes_guards p rc curr s → has_legal_push (player_at curr s) s)
     ∨ ∃ curr, passes_guards p rc curr s
         ∧ ¬ has_legal_push (player_at curr s) s
         ∧ winner s' = Some (get_name (player_at (1 - curr) s))).
Proof.
  intros H. destruct (with_turn_frame p s) as (_ & Hw0 & _).
  apply make_move_false in H
    as [[-> Hno]|[(curr & s1 & Hadm & H1 & ->)|(curr & s1 & Hadm & H1 & Hs')]].
  - split; [done|]. left. split; [done|]. intros curr Hg. by destruct (Hno curr).
  - apply any_legal_move_spec in H1 as ((_ & _ & Ht1 & _) & _ & Hiff).
    split; [done|]. right. exists curr. split; [done|]. split; [|done].
    intros Hl. apply (has_legal_push_with_turn _ p), Hiff in Hl. discriminate Hl.
  - apply any_legal_move_spec in H1 as ((_ & Hw1 & Ht1 & _) & _ & Hiff).
    assert (Hlegal : ∀ curr', passes_guards p rc curr' s
                               → has_legal_push (player_at curr' s) s).
    { intros curr' Hg.
      assert (curr' = curr) as ->.
      { destruct Hg as (_&_&_&?&_), Hadm as (_&_&_&?&_). congruence. }
      apply (has_legal_push_with_turn _ p), Hiff. done. }
    destruct Hs' as [[-> _]|(dd & _ & Hpush)].
    + split; [done|]. left. split; [congruence|done].
    + apply push_frame in Hpush as [(_ & Hw2 & Ht2 & _) _].
      split; [congruence|]. left. split; [congruence|done].
Qed.

Lemma accepted_same p rc d s1 s2 :
  same_game s1 s2 →
  (∃ curr dd s', passes_guards p rc curr s1 ∧ d = dir_name dd
                 ∧ push dd rc (player_at curr s1) s1 = Some (true, s')) →
  ∃ curr dd s', passes_guards p rc curr s2 ∧ d = dir_name dd
                ∧ push dd rc (player_at curr s2) s2 = Some (true, s').
Proof.
  intros Hsame (curr & dd & s' & Hg & Hd & Hpush).
  pose proof Hsame as (Hp & _ & _ & Hb & _ & _ & _ & Hn).
  eapply (push_transfer _ _ _ s1 s2) in Hpush as [s2' Hpush]; [|done..].
  exists curr, dd, s2'. split; [by eapply passes_guards_same|]. split; [done|].
  unfold player_at in *. by rewrite <- Hp.
Qed.

(** X12.  The scratch attributes carry nothing from one call to the next.
    On a 7x7 board, two game objects that differ only in [_captured_marble]
    and [_temp_board] get the same answer from [make_move], and the game
    objects after the call again differ at most in those two. *)
Theorem scratch_is_harmless p rc d s1 s2 ok s1' :
  board_ok (the_board s1) → same_game s1 s2 →
  make_move p rc d s1 = Some (ok, s1') →
  ∃ s2', make_move p rc d s2 = Some (ok, s2') ∧ same_game s1' s2'.
Proof.
  intros Hok1 Hsame H.
  assert (Hok2 : board_ok (the_board s2)).
  { destruct Hsame as (_ & _ & _ & <- & _). done. }
  pose proof (make_move_accepts p rc d s1 Hok1) as Hacc1.
  pose proof (make_move_accepts p rc d s2 Hok2) as Hacc2.
  destruct (make_move_is_Some p rc d s2 Hok2) as [[ok2 s2'] H'].
  assert (ok2 = ok) as ->.
  { destruct ok, ok2; try done.
    - destruct Hacc2 as [_ Hacc2]. destruct Hacc2 as [s' Hs'].
      + apply (accepted_same _ _ _ s1); [done|]. apply Hacc1. by eexists.
      + congruence.
    - destruct Hacc1 as [_ Hacc1]. destruct Hacc1 as [s' Hs'].
      + apply (accepted_same _ _ _ s2); [by apply same_game_sym|].
        apply Hacc2. by eexists.
      + congruence. }
  exists s2'. split; [done|].
  pose proof Hsame as (Hp & Hw & Ht & Hb & Hr & Hwh & Hbl & Hn).
  destruct ok.
  - apply make_move_true in H
      as (curr & dd & u1 & u2 & t & _ & _ & Hon & Hcurr & _ & H1 & -> & H2 & Htb & ->).
    apply make_move_true in H'
      as (curr' & dd' & v1 & v2 & t' & _ & _ & _ & Hcurr' & _ & H1' & Hd & H2' & Htb' & ->).
    apply dir_name_inj in Hd as <-.
    assert (curr' = curr) as ->.
    { unfold resolve in *. rewrite Hp in Hcurr. congruence. }
    apply any_legal_move_spec in H1 as ((A1&A2&A3&A4&A5&A6&A7) & A8 & _).
    apply any_legal_move_spec in H1' as ((B1&B2&B3&B4&B5&B6&B7) & B8 & _).
    destruct (with_turn_frame p s1) as (C1&C2&C3&C4&C5&C6&C7).
    destruct (with_turn_frame p s2) as (D1&D2&D3&D4&D5&D6&D7).
    assert (Hturn : turn (with_turn p s1) = turn (with_turn p s2)).
    { by rewrite !with_turn_turn, Ht. }
    rewrite !player_at_with_turn in *.
    assert (Hpl : player_at curr s1 = player_at curr s2).
    { unfold player_at. by rewrite Hp. }
    rewrite Hpl in H2.
    pose proof (push_frame _ _ _ _ _ _ H2) as [(E1&E2&E3&E4&E5&E6&E7) _].
    pose proof (push_frame _ _ _ _ _ _ H2') as [(F1&F2&F3&F4&F5&F6&F7) _].
    eapply (push_agree _ _ _ u1 v1) in H2 as (v2' & H2'' & G1 & G2 & G3);
      [|congruence|by replace (no_go_move u1) with (no_go_move v1) by congruence].
    assert (v2' = v2) as -> by congruence.
    specialize (G3 eq_refl).
    assert (t' = t) as -> by congruence.
    apply commit_same; [|done].
    repeat split; congruence.
  - pose proof (make_move_false_frame _ _ _ _ _ H) as (A1 & A2 & A3 & A4 & A5 & A6).
    pose proof (make_move_false_frame _ _ _ _ _ H') as (B1 & B2 & B3 & B4 & B5 & B6).
    apply rejected_call_turn_winner in H as [Ht1 Hw1].
    apply rejected_call_turn_winner in H' as [Ht2 Hw2].
    assert (Hturn : turn (with_turn p s1) = turn (with_turn p s2)).
    { by rewrite !with_turn_turn, Ht. }
    assert (Hlegal : ∀ curr, has_legal_push (player_at curr s1) s1
                             ↔ has_legal_push (player_at curr s2) s2).
    { intros curr. replace (player_at curr s2) with (player_at curr s1)
        by (unfold player_at; by rewrite Hp).
      split; apply has_legal_push_transfer; done. }
    assert (Hwin : winner s1' = winner s2').
    { destruct Hw1 as [[Hw1 Hall1]|(c1 & Hg1 & Hn1 & Hw1)],
               Hw2 as [[Hw2 Hall2]|(c2 & Hg2 & Hn2 & Hw2)].
      - congruence.
      - destruct Hn2. apply Hlegal, Hall1. by eapply passes_guards_same, Hg2; apply same_game_sym.
      - destruct Hn1. apply Hlegal, Hall2. by eapply passes_guards_same, Hg1.
      - assert (c1 = c2) as ->.
        { destruct Hg1 as (_&_&_&Hc1&_), Hg2 as (_&_&_&Hc2&_).
          unfold resolve in *. rewrite Hp in Hc1. congruence. }
        rewrite Hw1, Hw2. unfold player_at. by rewrite Hp. }
    repeat split; congruence.
Qed.

Definition scratched_main : KubaGame :=
  set_temp_board (Some []) (set_captured_marble (Some R) main_game).

Definition after_first_move_scratched : KubaGame :=
  Eval vm_compute in
    default main_game (snd <$> make_move "PlayerA" (6, 5) "F" scratched_main).

Lemma scratch_is_harmless_witness :
  ∃ s2', make_move "PlayerA" (6, 5) "F" scratched_main = Some (true, s2')
         ∧ same_game after_first_move s2'.
Proof.
  apply (scratch_is_harmless "PlayerA" (6, 5) "F" main_game scratched_main true
           after_first_move).
  - exact main_game_board_ok.
  - by repeat split.
  - vm_compute. reflexivity.
Defined.

(** ** The queries [get_captured] and [get_player] *)

Lemma booked_red curr s :
  get_red (players s).1 ≤ get_red (players (booked curr s)).1 ≤ get_red (players s).1 + 1
  ∧ get_red (players s).2 ≤ get_red (players (booked curr s)).2 ≤ get_red (players s).2 + 1.
Proof.
  unfold booked, update_marbles, update_player.
  destruct (captured_marble s); repeat case_decide; simpl; lia.
Qed.

(** X13.  What [get_captured] answers from one call of [make_move] to the
    next.  A name that [get_captured] knows before a call it knows after
    it; the number it answers is unchanged by a rejected call and grows by
    at most one in an accepted call. *)
Theorem get_captured_after_call p rc d s ok s' name n :
  make_move p rc d s = Some (ok, s') →
  get_captured name s = Some n →
  ∃ n', get_captured name s' = Some n' ∧ n ≤ n' ≤ n + 1 ∧ (ok = false → n' = n).
Proof.
  intros H Hn. destruct ok.
  - apply make_move_true in H
      as (curr & dd & s1 & s2 & t & _ & _ & _ & _ & _ & H1 & _ & H2 & _ & ->).
    apply any_legal_move_spec in H1 as ((Hp1 & _) & _).
    destruct (with_turn_frame p s) as (Hp0 & _).
    apply push_frame in H2 as [(Hp2 & _) _].
    assert (Hp : players s2 = players s) by congruence.
    destruct (booked_names curr s2) as [N1 N2].
    destruct (booked_red curr s2) as [R1 R2].
    rewrite Hp in N1, N2, R1, R2.
    unfold get_captured in *. rewrite commit_players, N1, N2.
    repeat case_decide; simplify_eq; eexists; (split; [done|]); split; (lia || done).
  - apply make_move_false_frame in H as (_ & Hp & _).
    exists n. unfold get_captured in *. rewrite Hp. split; [done|]. split; [lia|done].
Qed.

Lemma get_captured_after_call_witness :
  ∃ n', get_captured "PlayerA" after_seventh_red = Some n'
        ∧ 6 ≤ n' ≤ 6 + 1 ∧ (true = false → n' = 6).
Proof.
  apply (get_captured_after_call "PlayerA" (0, 1) "L" near_win_game true
           after_seventh_red "PlayerA" 6).
  - vm_compute. reflexivity.
  - vm_compute. reflexivity.
Defined.

(** X14.  The two look-ups by name agree: [get_captured] answers the red
    count of the player object [get_player] returns, both answer [None]
    exactly for a name that neither player has, and a name that both
    players have is resolved to the first player. *)
Theorem name_lookups name s :
  get_captured name s = get_red <$> get_player name s
  ∧ (get_player name s = None
     ↔ get_name (players s).1 ≠ name ∧ get_name (players s).2 ≠ name)
  ∧ (get_name (players s).1 = name → get_player name s = Some (players s).1).
Proof.
  unfold get_captured, get_player.
  repeat case_decide; simpl; naive_solver.
Qed.
